(** * websims: the n-body simulation step and its vector algebra

    A shallow embedding of [dist/n-dim-vector.js] (module [NVec]) and of
    [src/sim/simulation.ts] (module [Sim]).

    JavaScript numbers are IEEE-754 binary64 values.  The embedding is written
    once over an interface [Number] of the arithmetic the program uses, and
    read at two instances: [float_number], Rocq's primitive binary64 floats
    (what the program computes, bit for bit, and what every concrete run below
    evaluates), and [real_number], the real numbers (the exact arithmetic in
    which the algebraic laws of the specification are meant). *)

From Corelib Require Import PrimFloat.
From Corelib Require SpecFloat FloatAxioms.
From Stdlib Require Import ZArith List Bool String Lia.
From Stdlib Require Import Reals Lra.
From Stdlib Require Import Permutation.
Import ListNotations.

(** ** Numbers *)

Class Number (num : Type) : Type := {
  lit : Z -> num;                 (* an integer literal of the source *)
  nadd : num -> num -> num;       (* a + b *)
  nsub : num -> num -> num;       (* a - b *)
  nmul : num -> num -> num;       (* a * b *)
  ndiv : num -> num -> num;       (* a / b *)
  nsqrt : num -> num;             (* Math.sqrt(a) *)
  nltb : num -> num -> bool;      (* a < b *)
  neqb : num -> num -> bool       (* a === b *)
}.

Declare Scope num_scope.
Delimit Scope num_scope with num.
Infix "+" := nadd : num_scope.
Infix "-" := nsub : num_scope.
Infix "*" := nmul : num_scope.
Infix "/" := ndiv : num_scope.
Infix "<?" := nltb : num_scope.
Infix "===" := neqb (at level 70, no associativity) : num_scope.

(** *** binary64 *)

Module Js.

(** Integer literals as doubles: exact below 2^53. *)
Fixpoint of_pos (p : positive) : PrimFloat.float :=
  match p with
  | xH => PrimFloat.one
  | xO q => PrimFloat.mul PrimFloat.two (of_pos q)
  | xI q => PrimFloat.add (PrimFloat.mul PrimFloat.two (of_pos q)) PrimFloat.one
  end.

Definition of_Z (z : Z) : PrimFloat.float :=
  match z with
  | Z0 => PrimFloat.zero
  | Zpos p => of_pos p
  | Zneg p => PrimFloat.opp (of_pos p)
  end.

End Js.

#[export] Instance float_number : Number PrimFloat.float := {|
  lit := Js.of_Z;
  nadd := PrimFloat.add;
  nsub := PrimFloat.sub;
  nmul := PrimFloat.mul;
  ndiv := PrimFloat.div;
  nsqrt := PrimFloat.sqrt;
  nltb := PrimFloat.ltb;
  neqb := PrimFloat.eqb
|}.

(** *** exact arithmetic *)

Definition Rltb (x y : R) : bool := if Rlt_dec x y then true else false.
Definition Reqb (x y : R) : bool := if Req_dec_T x y then true else false.

#[export] Instance real_number : Number R := {|
  lit := IZR;
  nadd := Rplus;
  nsub := Rminus;
  nmul := Rmult;
  ndiv := Rdiv;
  nsqrt := sqrt;
  nltb := Rltb;
  neqb := Reqb
|}.

(** ** How a call completes

    No function of the two source files contains a [throw]; the second
    constructor is there for the statements of the specification that speak
    of failures. *)

Inductive Failure : Set :=
| DivideByZero
| ContractViolation.

Inductive Completion (A : Type) : Type :=
| Normal (console : list string) (value : A)
| Throw (e : Failure).

Arguments Normal {A} console value.
Arguments Throw {A} e.

(** What a call that completed has written to the console, and what it has
    returned ([otherwise] stands in for a call that did not complete). *)
Definition written {A : Type} (c : Completion A) : list string :=
  match c with
  | Normal console _ => console
  | Throw _ => []
  end.

Definition returned {A : Type} (c : Completion A) (otherwise : A) : A :=
  match c with
  | Normal _ value => value
  | Throw _ => otherwise
  end.

(** ** dist/n-dim-vector.js *)

Module NVec.
Section Ops.
Context {num : Type} `{Number num}.
Local Open Scope num_scope.

(** An [NDimVector] is its [components] array; the methods of the class
    ([add], [sub], [mul], [div], [magnitude], ...) unwrap it, call the
    function of the same name and wrap the result again, so one definition
    stands for both. *)
Definition Vec : Type := list num.

(** Modelled from the spec: [zipWith] of [./fn/zip.js] is not among the
    sources; it combines two vectors of the same dimension component by
    component.  On operands of unequal length this model stops at the
    shorter one; no statement below depends on that case. *)
Fixpoint zipWith (f : num -> num -> num) (l r : Vec) : Vec :=
  match l, r with
  | a :: l', b :: r' => f a b :: zipWith f l' r'
  | _, _ => []
  end.

Definition add (augend addend : Vec) : Vec := zipWith (fun a b => a + b) augend addend.

Definition sub (minuend subtrahend : Vec) : Vec := zipWith (fun a b => a - b) minuend subtrahend.

Definition mul (vector : Vec) (scalar : num) : Vec := map (fun component => component * scalar) vector.

(** [div]: the guard writes to the error console and falls through to the
    [map]. *)
Definition div_console (scalar : num) : list string :=
  if scalar === lit 0 then ["Div by 0"%string] else [].

Definition div_value (vector : Vec) (scalar : num) : Vec :=
  map (fun component => component / scalar) vector.

Definition div (vector : Vec) (scalar : num) : Completion Vec :=
  Normal (div_console scalar) (div_value vector scalar).

Definition magnitudeSquared (vector : Vec) : num :=
  fold_left (fun acc val => acc + val * val) vector (lit 0).

Definition magnitude (vector : Vec) : num := nsqrt (magnitudeSquared vector).

(** [NDimVector.zero(length)] *)
Definition zero (length : nat) : Vec := repeat (lit 0) length.

(** What an array yields, read as a number, at an index it does not have:
    [undefined], which arithmetic turns into [NaN] (in doubles, [0 / 0]). *)
Definition missing : num := lit 0 / lit 0.

(** [dot]: [reduce] hands the callback the index of [curr], and [r[index]]
    is looked up in the other array. *)
Fixpoint dot_from (index : nat) (acc : num) (l r : Vec) : num :=
  match l with
  | [] => acc
  | curr :: l' => dot_from (S index) (acc + curr * nth index r missing) l' r
  end.

Definition dot (l r : Vec) : num := dot_from 0 (lit 0) l r.

Definition unit (vector : Vec) : Vec :=
  let mag := magnitude vector in
  map (fun val => val / mag) vector.

Definition midpoint (l r : Vec) : Vec := zipWith (fun a b => (a + b) / lit 2) l r.

(** [getItem(index)], for an integer [index]: [undefined] outside the
    array. *)
Definition getItem (components : Vec) (index : Z) : option num :=
  if (index <? 0)%Z then None else nth_error components (Z.to_nat index).

(** [get zero()] *)
Definition zero_of (components : Vec) : Vec := zero (List.length components).

End Ops.

Arguments Vec num : clear implicits.

End NVec.

(** ** src/sim/simulation.ts *)

Module Sim.
Section Simulation.
Context {num : Type} `{Number num}.
Local Open Scope num_scope.

Definition Vec : Type := NVec.Vec num.

(** [const dimensions: NDim = 2] *)
Definition dimensions : nat := 2.

(** The fields of a [MassiveBody] that the simulation reads and writes. *)
Record MassiveBody : Type := mkBody {
  id : Z;
  pos : Vec;
  vel : Vec;
  acc : Vec;
  m : num;
  r : num;
  isStatic : bool
}.

Definition set_acc (b : MassiveBody) (a : Vec) : MassiveBody :=
  mkBody (id b) (pos b) (vel b) a (m b) (r b) (isStatic b).

(** [Map<number, MassiveBody>]: the entries in insertion order.  [set] on a
    key that is present replaces the value where it stands, on a new key it
    appends; [delete] removes the entry. *)
Definition BodyList : Type := list (Z * MassiveBody).

Fixpoint get (k : Z) (bodies : BodyList) : option MassiveBody :=
  match bodies with
  | [] => None
  | (k', b) :: rest => if Z.eqb k k' then Some b else get k rest
  end.

Fixpoint set (k : Z) (b : MassiveBody) (bodies : BodyList) : BodyList :=
  match bodies with
  | [] => [(k, b)]
  | (k', b') :: rest =>
      if Z.eqb k k' then (k, b) :: rest else (k', b') :: set k b rest
  end.

Fixpoint delete (k : Z) (bodies : BodyList) : BodyList :=
  match bodies with
  | [] => []
  | (k', b') :: rest =>
      if Z.eqb k k' then delete k rest else (k', b') :: delete k rest
  end.

Definition keys (bodies : BodyList) : list Z := List.map fst bodies.

(** Modelled from the spec: class [MassiveBody] of [./kinetic-body.js] is not
    among the sources.  Its constructor assigns the next value of a
    process-wide, monotonically increasing id counter, clamps the mass to
    [MAX_MASS], derives the radius from the mass and starts with no
    accumulated acceleration. *)
Record BodyModel : Type := {
  max_mass : num;
  radius : num -> num
}.

Record BodyArgs : Type := {
  arg_m : num;
  arg_pos : Vec;
  arg_vel : Vec;
  arg_isStatic : bool
}.

Definition clamp_mass (M : BodyModel) (mass : num) : num :=
  if max_mass M <? mass then max_mass M else mass.

Definition newMassiveBody (M : BodyModel) (nextId : Z) (args : BodyArgs)
  : MassiveBody * Z :=
  let mass := clamp_mass M (arg_m args) in
  (mkBody nextId (arg_pos args) (arg_vel args) (NVec.zero dimensions)
          mass (radius M mass) (arg_isStatic args),
   (nextId + 1)%Z).

(** Modelled from the spec: [SimulationBody.eq] is not among the sources;
    bodies are identified by their id.  [Array.prototype.includes] compares
    object references, and two references are the same object exactly when
    the ids are the same. *)
Definition eq (a b : MassiveBody) : bool := Z.eqb (id a) (id b).

Definition includes (c : list MassiveBody) (b : MassiveBody) : bool :=
  existsb (fun x => Z.eqb (id x) (id b)) c.

(** [get zeroVector()] *)
Definition zeroVector : Vec := [lit 0; lit 0].

(** *** The force pass

    The state the two nested loops of [updateAcceleration2] work on.  A
    collision group holds the body objects themselves; the only field the
    loops assign is [acc], which the merge never reads. *)
Record Pass : Type := mkPass {
  bodies : BodyList;
  collisions : list (list MassiveBody);
  collidedIds : list Z;
  console : list string
}.

(** [getCollisionWith] returns the first group that holds [b1] or [b2]; the
    array it returns is then pushed to in place, so the result is the
    position of that group in [collisions]. *)
Fixpoint getCollisionWith (collisions : list (list MassiveBody))
  (b1 b2 : MassiveBody) : option nat :=
  match collisions with
  | [] => None
  | c :: rest =>
      if existsb (fun b => eq b b1 || eq b b2) c then Some 0%nat
      else option_map S (getCollisionWith rest b1 b2)
  end.

(** [coll.push(b)] on the group at position [i]. *)
Fixpoint push_at (i : nat) (b : MassiveBody)
  (collisions : list (list MassiveBody)) : list (list MassiveBody) :=
  match collisions, i with
  | [], _ => []
  | c :: rest, O => (c ++ [b]) :: rest
  | c :: rest, S i' => c :: push_at i' b rest
  end.

Definition DISTANCE_SCALE : num := lit 6500.

(** [r], [distance] and [distanceSquared] of lines 104-106. *)
Definition displacement (b1 b2 : MassiveBody) : Vec := NVec.sub (pos b2) (pos b1).

Definition distance (b1 b2 : MassiveBody) : num :=
  NVec.magnitude (displacement b1 b2) * DISTANCE_SCALE.

Definition distanceSquared (b1 b2 : MassiveBody) : num :=
  NVec.magnitudeSquared (displacement b1 b2).

(** The test of line 108. *)
Definition threshold (b1 b2 : MassiveBody) : num := (r b1 + r b2) * lit 400.

Definition colliding (b1 b2 : MassiveBody) : bool :=
  distance b1 b2 <? threshold b1 b2.

(** Lines 113-126: the colliding branch. *)
Definition collide (b1 b2 : MassiveBody) (st : Pass) : Pass :=
  let ids := collidedIds st ++ [id b1; id b2] in
  match getCollisionWith (collisions st) b1 b2 with
  | Some i =>
      let coll := nth i (collisions st) [] in
      if includes coll b1 then
        mkPass (bodies st) (push_at i b2 (collisions st)) ids (console st)
      else if includes coll b2 then
        mkPass (bodies st) (push_at i b1 (collisions st)) ids (console st)
      else
        mkPass (bodies st) (collisions st) ids (console st ++ ["wut"%string])
  | None =>
      mkPass (bodies st) (collisions st ++ [[b1; b2]]) ids (console st)
  end.

(** Line 131. *)
Definition accFactor (b1 b2 : MassiveBody) : Vec :=
  NVec.div_value (displacement b1 b2) (distanceSquared b1 b2 * distance b1 b2).

(** Lines 134-142: what the pair adds to each body. *)
Definition attract1 (b1 b2 : MassiveBody) : MassiveBody :=
  if negb (isStatic b1) then
    let dAcc1 := NVec.mul (accFactor b1 b2) (m b2) in
    set_acc b1 (NVec.add (acc b1) dAcc1)
  else b1.

Definition attract2 (b1 b2 : MassiveBody) : MassiveBody :=
  if negb (isStatic b2) then
    let dAcc2 := NVec.mul (accFactor b1 b2) (m b1) in
    set_acc b2 (NVec.sub (acc b2) dAcc2)
  else b2.

(** Lines 128-142: the other branch.  [b1] and [b2] are the objects stored
    under [k] and [k2]; an assignment to [b.acc] is seen by the map. *)
Definition attract (k k2 : Z) (b1 b2 : MassiveBody) (st : Pass) : Pass :=
  mkPass (set k2 (attract2 b1 b2) (set k (attract1 b1 b2) (bodies st)))
         (collisions st) (collidedIds st)
         (console st ++ NVec.div_console (distanceSquared b1 b2 * distance b1 b2)).

(** The body of the inner loop for the keys [k] (outer) and [k2] (inner).
    The keys are those of the map and the loops delete nothing, so both
    lookups find a body. *)
Definition evalPair (k k2 : Z) (st : Pass) : Pass :=
  match get k2 (bodies st) with
  | None => st
  | Some b2 =>
      match get k (bodies st) with
      | None => st
      | Some b1 =>
          if colliding b1 b2 then collide b1 b2 st else attract k k2 b1 b2 st
      end
  end.

(** [for (let j = i + 1; j < bodyKeys.length; j++)] *)
Definition inner (k : Z) (later : list Z) (st : Pass) : Pass :=
  fold_left (fun st' k2 => evalPair k k2 st') later st.

(** [for (const [i, k] of bodyKeys.entries())] *)
Fixpoint outer (bodyKeys : list Z) (st : Pass) : Pass :=
  match bodyKeys with
  | [] => st
  | k :: later => outer later (inner k later st)
  end.

Definition forcePass (bodies0 : BodyList) (console0 : list string) : Pass :=
  outer (keys bodies0) (mkPass bodies0 [] [] console0).

(** *** The merge *)

(** [centerOfMass]: the last case ends in [moment.div(mass)], which writes
    "Div by 0" when the masses add up to zero. *)
Definition centerOfMass (group : list MassiveBody) : Completion Vec :=
  match group with
  | [] => Normal [] [lit 0; lit 0]
  | b1 :: [] => Normal [] (pos b1)
  | b1 :: bs =>
      let mass := fold_left (fun mass b => mass + m b) bs (m b1) in
      let moment :=
        fold_left (fun moment b => NVec.add moment (NVec.mul (pos b) (m b)))
                  bs (NVec.mul (pos b1) (m b1)) in
      NVec.div moment mass
  end.

(** Modelled from the spec: [MassiveBody.nCollisionMomentum] is not among the
    sources; the velocity of the merge product is the momentum-conserving
    combination, the sum of [mass_i * vel_i] over the sum of [mass_i].
    Whether it writes to the console is not known: here it writes nothing. *)
Definition totalMass (group : list MassiveBody) : num :=
  fold_left (fun a b => a + m b) group (lit 0).

Definition totalMomentum (group : list MassiveBody) : Vec :=
  fold_left (fun p b => NVec.add p (NVec.mul (vel b) (m b))) group
            (NVec.zero dimensions).

Definition nCollisionMomentum (group : list MassiveBody) : Vec :=
  NVec.div_value (totalMomentum group) (totalMass group).

(** Lines 192-202: the body that replaces a group.  [centerOfMass] is called
    for a group without a static member only. *)
Definition mergeArgs (coll : list MassiveBody) : BodyArgs :=
  let isStatic' := existsb isStatic coll in
  let mass := fold_left (fun a b => a + m b) coll (lit 0) in
  {| arg_m := mass;
     arg_pos := if isStatic' then zeroVector
                else returned (centerOfMass coll) zeroVector;
     arg_vel := if isStatic' then zeroVector else nCollisionMomentum coll;
     arg_isStatic := isStatic' |}.

(** What building that body writes to the console. *)
Definition mergeConsole (coll : list MassiveBody) : list string :=
  if existsb isStatic coll then [] else written (centerOfMass coll).

Definition mergeProduct (M : BodyModel) (nextId : Z) (coll : list MassiveBody)
  : MassiveBody := fst (newMassiveBody M nextId (mergeArgs coll)).

(** [for (const b of coll) bodies.delete(b.id)] *)
Definition deleteAll (coll : list MassiveBody) (bodies0 : BodyList) : BodyList :=
  fold_left (fun bs b => delete (id b) bs) coll bodies0.

Fixpoint handleCollisions (M : BodyModel) (collisionLists : list (list MassiveBody))
  (bodies0 : BodyList) (nextId : Z) : BodyList * Z :=
  match collisionLists with
  | [] => (bodies0, nextId)
  | coll :: rest =>
      let (newBody, nextId') := newMassiveBody M nextId (mergeArgs coll) in
      handleCollisions M rest (set (id newBody) newBody (deleteAll coll bodies0)) nextId'
  end.

(** What [handleCollisions] writes to the console, group after group. *)
Definition handleCollisionsConsole (collisionLists : list (list MassiveBody))
  : list string := flat_map mergeConsole collisionLists.

(** *** The world *)

Record World : Type := mkWorld {
  w_bodies : BodyList;
  w_nextId : Z;
  w_console : list string
}.

Definition updateAcceleration2 (M : BodyModel) (w : World) : World :=
  let st := forcePass (w_bodies w) (w_console w) in
  match collisions st with
  | [] => mkWorld (bodies st) (w_nextId w) (console st)
  | _ :: _ =>
      let (bodies', nextId') :=
        handleCollisions M (collisions st) (bodies st) (w_nextId w) in
      mkWorld bodies' nextId'
              (console st ++ handleCollisionsConsole (collisions st))
  end.

(** [addBody]: one [Map.prototype.set]. *)
Definition addBody (body : MassiveBody) (bodies0 : BodyList) : Completion BodyList :=
  Normal [] (set (id body) body bodies0).

(** [static get max_pos()] and [static get min_pos()] *)
Definition max_pos : num := lit 2000.
Definition min_pos : num := lit (-2000).

(** [getRandomPos], lines 214-226.  [Math.random] and [scale] of
    [../lib/math.js] are outside the sources: the two values of
    [scale(Math.random(), max, min)] are the arguments. *)
Definition getRandomPos (scaledX scaledY : num) : Vec :=
  let x := if scaledX <? lit 0 then scaledX - lit 500 else scaledX + lit 2000 in
  let y := if scaledY <? lit 0 then scaledY - lit 2500 else scaledY + lit 500 in
  [x; y].

End Simulation.

Arguments Vec num : clear implicits.
Arguments MassiveBody num : clear implicits.
Arguments BodyList num : clear implicits.
Arguments BodyModel num : clear implicits.
Arguments BodyArgs num : clear implicits.
Arguments Pass num : clear implicits.
Arguments World num : clear implicits.

End Sim.

(** ** class Vec2 (src/sim/simulation.ts, lines 249-294)

    The members that are written out in the class; [add], [sub], [mul] and
    [div] go through [applyArithmetic] of the base class, which is not among
    the sources.  [x ** 2] is the product [x * x]. *)

Module Vec2.
Section Ops.
Context {num : Type} `{Number num}.
Local Open Scope num_scope.

Record t : Type := mk { x : num; y : num }.

Definition cross (this other : t) : num := x this * y other - y this * x other.

Definition dot (this other : t) : num := x this * x other + y this * y other.

Definition magnitudeSquared (this : t) : num := x this * x this + y this * y this.

Definition magnitude (this : t) : num := nsqrt (magnitudeSquared this).

Definition zero : t := mk (lit 0) (lit 0).

End Ops.

Arguments t num : clear implicits.

End Vec2.

(** * Statements

    The notions the properties below are stated with, and the inputs they are
    tried on. *)

(** ** Over any arithmetic *)

Section Notions.
Context {num : Type} `{Number num}.

(** What the specification asks of [div]: a zero divisor makes the call fail. *)
Definition div_fails_on_zero (v : NVec.Vec num) : Prop :=
  NVec.div v (lit 0) = Throw DivideByZero.

(** What the specification asks of [addBody]: an id that is already live makes
    the call fail. *)
Definition addBody_rejects_duplicate
  (body : Sim.MassiveBody num) (bodies : Sim.BodyList num) : Prop :=
  In (Sim.id body) (Sim.keys bodies) ->
  exists e, Sim.addBody body bodies = Throw e.

(** Everything of a body but its accumulated acceleration. *)
Definition frozen (b : Sim.MassiveBody num)
  : Z * Sim.Vec num * Sim.Vec num * num * num * bool :=
  (Sim.id b, Sim.pos b, Sim.vel b, Sim.m b, Sim.r b, Sim.isStatic b).

(** Every group has at least two entries. *)
Definition pairs_or_more (cs : list (list (Sim.MassiveBody num))) : Prop :=
  Forall (fun c => (2 <= List.length c)%nat) cs.

(** The ids in the groups of a pass. *)
Definition groupIds (st : Sim.Pass num) : list (list Z) :=
  map (map Sim.id) (Sim.collisions st).

(** The live ids of a world, each with the mass of its body. *)
Definition masses (w : Sim.World num) : list (Z * num) :=
  map (fun kb => (fst kb, Sim.m (snd kb))) (Sim.w_bodies w).

(** [k] is the id of no member of [coll]. *)
Definition outside (coll : list (Sim.MassiveBody num)) (k : Z) : bool :=
  negb (existsb (fun b => Z.eqb (Sim.id b) k) coll).

(** The factor as the specification and the comment of lines 128-130 give it:
    the displacement over the cube of its magnitude. *)
Definition accFactor_unscaled (b1 b2 : Sim.MassiveBody num) : NVec.Vec num :=
  let r := NVec.sub (Sim.pos b2) (Sim.pos b1) in
  NVec.div_value r (NVec.magnitudeSquared r * NVec.magnitude r)%num.

(** The evaluation that leads from [st] to [st'] has recorded the pair as
    colliding: the collision groups have changed, and one of them now holds
    both bodies. *)
Definition flagged (b1 b2 : Sim.MassiveBody num) (st st' : Sim.Pass num) : Prop :=
  Sim.collisions st' <> Sim.collisions st
  /\ exists group,
       In group (Sim.collisions st')
       /\ Sim.includes group b1 = true
       /\ Sim.includes group b2 = true.

(** A group entry is a live body: some body of [live] with the same fields,
    up to the accumulated acceleration. *)
Definition drawn_from (live : Sim.BodyList num) (b : Sim.MassiveBody num) : Prop :=
  exists k b0, Sim.get k live = Some b0 /\ frozen b = frozen b0.

(** The bookkeeping of a world: no id twice, every body stored under its own
    id, every live id below the id counter. *)
Definition well_formed (w : Sim.World num) : Prop :=
  NoDup (Sim.keys (Sim.w_bodies w))
  /\ (forall k b, Sim.get k (Sim.w_bodies w) = Some b -> Sim.id b = k)
  /\ (forall k, In k (Sim.keys (Sim.w_bodies w)) -> (k < Sim.w_nextId w)%Z).

(** The entries of every group are bodies of the map the pass started from. *)
Definition all_drawn_from (live : Sim.BodyList num)
  (cs : list (list (Sim.MassiveBody num))) : Prop :=
  Forall (Forall (drawn_from live)) cs.

(** The state of a pass that started from [live]. *)
Definition tracks (live : Sim.BodyList num) (st : Sim.Pass num) : Prop :=
  (forall k, option_map frozen (Sim.get k (Sim.bodies st))
             = option_map frozen (Sim.get k live))
  /\ all_drawn_from live (Sim.collisions st).

(** The pairs of a list, evaluated one after the other. *)
Definition evalPairs (pairs : list (Z * Z)) (st : Sim.Pass num) : Sim.Pass num :=
  fold_left (fun st' p => Sim.evalPair (fst p) (snd p) st') pairs st.

(** The two bodies each group was opened with. *)
Definition founders (cs : list (list (Sim.MassiveBody num)))
  : list (Sim.MassiveBody num) := flat_map (firstn 2) cs.

(** The state of the pass: bodies are stored under their ids, groups have two
    entries or more, and no two founders have the same id. *)
Definition founded (st : Sim.Pass num) : Prop :=
  (forall k b, Sim.get k (Sim.bodies st) = Some b -> Sim.id b = k)
  /\ pairs_or_more (Sim.collisions st)
  /\ NoDup (map Sim.id (founders (Sim.collisions st))).

End Notions.

(** Console lines that all read "Div by 0". *)
Definition only_div_by_0 (added : list string) : Prop :=
  Forall (fun line => line = "Div by 0"%string) added.

(** The pairs of keys in the order in which the two loops of
    [updateAcceleration2] reach them. *)
Fixpoint pairsOf (bodyKeys : list Z) : list (Z * Z) :=
  match bodyKeys with
  | [] => []
  | k :: later => map (pair k) later ++ pairsOf later
  end.

(** What the specification asks of the groups of one tick: no body in two
    groups, no body twice in a group. *)
Definition one_group_each (groups : list (list Z)) : Prop := NoDup (List.concat groups).

(** ** In exact arithmetic *)

Definition vopp (v : list R) : list R := map Ropp v.


(** The sums of the specification, written by recursion on the group: the
    total mass, and the sum of [mass_i * f_i] for a vector field [f] of the
    bodies (position or velocity). *)
Definition mass_sum (coll : list (Sim.MassiveBody R)) : R :=
  fold_right Rplus 0%R (map Sim.m coll).

Definition weighted_sum (f : Sim.MassiveBody R -> list R)
  (coll : list (Sim.MassiveBody R)) : list R :=
  fold_right NVec.add [0; 0]%R (map (fun b => NVec.mul (f b) (Sim.m b)) coll).

(** The sum of the squares of the components, by recursion. *)
Definition sumsq (v : list R) : R := fold_right (fun c t => (c * c + t)%R) 0%R v.

(** The sum of the products of the components of two vectors. *)
Definition sumprod (l r : list R) : R :=
  fold_right (fun cr t => (fst cr * snd cr + t)%R) 0%R (combine l r).

(** Component [i] of the sum of [mass * acc] over the live bodies. *)
Definition net (i : nat) (live : Sim.BodyList R) : R :=
  fold_right (fun kb t => (nth i (Sim.acc (snd kb)) 0 * Sim.m (snd kb) + t)%R) 0%R live.

(** A movable body with 2-dimensional position and acceleration. *)
Definition movable2 (b : Sim.MassiveBody R) : Prop :=
  List.length (Sim.pos b) = 2%nat
  /\ List.length (Sim.acc b) = 2%nat
  /\ Sim.isStatic b = false.

Definition all_movable2 (live : Sim.BodyList R) : Prop :=
  forall k b, Sim.get k live = Some b -> movable2 b.

(** ** Inputs in doubles *)

Module Dup.
(** Two different bodies that carry the id 7. *)
Definition first : Sim.MassiveBody float :=
  Sim.mkBody 7 [1; 2]%float [0; 0]%float [0; 0]%float 5%float 1%float false.
Definition second : Sim.MassiveBody float :=
  Sim.mkBody 7 [30; 40]%float [0; 0]%float [0; 0]%float 9%float 2%float false.
Definition live : Sim.BodyList float := [(7%Z, first)].
End Dup.

Module Close.
(** Two bodies one unit apart, radius 65 each: the scaled distance 6500 is
    below the threshold 52000. *)
Definition b1 : Sim.MassiveBody float :=
  Sim.mkBody 1 [0; 0]%float [0; 0]%float [0.5; 0.25]%float 10%float 65%float false.
Definition b2 : Sim.MassiveBody float :=
  Sim.mkBody 2 [1; 0]%float [0; 0]%float [-1; 2]%float 20%float 65%float false.
Definition st : Sim.Pass float := Sim.mkPass [(1%Z, b1); (2%Z, b2)] [] [] [].
End Close.

Module Apart.
(** Two bodies 5 apart with radius 1 each: scaled distance 32500, threshold
    800. *)
Definition b1 : Sim.MassiveBody float :=
  Sim.mkBody 1 [0; 0]%float [0; 0]%float [0; 0]%float 10%float 1%float false.
Definition b2 : Sim.MassiveBody float :=
  Sim.mkBody 2 [3; 4]%float [0; 0]%float [0; 0]%float 20%float 1%float false.
End Apart.

Module Pile.
(** A body on the x axis with radius 65: two of them collide when they are
    less than 8 apart. *)
Definition body (i : Z) (x mass : float) : Sim.MassiveBody float :=
  Sim.mkBody i [x; 0%float] [0; 0]%float [0; 0]%float mass 65%float false.

(** Three bodies, each within reach of the other two. *)
Definition three : Sim.BodyList float :=
  [(1%Z, body 1 0 10); (2%Z, body 2 1 20); (3%Z, body 3 2 30)]%float.

(** Four bodies on a line, in the order 1, 3, 4, 2 and 6 apart: 1 touches 3,
    3 touches 4, 4 touches 2, and no other pair touches. *)
Definition chain : Sim.BodyList float :=
  [(1%Z, body 1 0 10); (2%Z, body 2 18 20); (3%Z, body 3 6 30); (4%Z, body 4 12 40)]%float.

Definition model : Sim.BodyModel float :=
  {| Sim.max_mass := 1000%float; Sim.radius := PrimFloat.sqrt |}.
End Pile.

Module Edge.
(** Two bodies exactly 8 apart: scaled distance and threshold are both
    52000. *)
Definition st : Sim.Pass float :=
  Sim.mkPass [(1%Z, Pile.body 1 0 10); (2%Z, Pile.body 2 8 20)]%float [] [] [].
End Edge.

Module Start.
(** The world of [Pile.three] with the id counter at 4. *)
Definition world : Sim.World float := Sim.mkWorld Pile.three 4 [].
End Start.

Module Merge.
(** The three bodies of [Pile.three]; bodies 1 and 2 form a group. *)
Definition group : list (Sim.MassiveBody float) :=
  [Pile.body 1 0 10; Pile.body 2 1 20]%float.
End Merge.

(** ** Inputs in exact arithmetic *)

Module Orbit.
(** Two movable bodies 5 apart, radius 1 each. *)
Definition b1 : Sim.MassiveBody R :=
  Sim.mkBody 1 [0; 0]%R [0; 0]%R [0; 0]%R 10%R 1%R false.
Definition b2 : Sim.MassiveBody R :=
  Sim.mkBody 2 [3; 4]%R [0; 0]%R [0; 0]%R 20%R 1%R false.
Definition st : Sim.Pass R := Sim.mkPass [(1%Z, b1); (2%Z, b2)] [] [] [].
End Orbit.

Module Sun.
(** The same pair with the first body static. *)
Definition b1 : Sim.MassiveBody R :=
  Sim.mkBody 1 [0; 0]%R [0; 0]%R [0; 0]%R 10%R 1%R true.
Definition b2 : Sim.MassiveBody R := Orbit.b2.
Definition st : Sim.Pass R := Sim.mkPass [(1%Z, b1); (2%Z, b2)] [] [] [].
End Sun.

Module Group.
(** Two movable bodies of mass 1 and 3 and a static one of mass 500. *)
Definition a : Sim.MassiveBody R :=
  Sim.mkBody 1 [0; 0]%R [1; 0]%R [0; 0]%R 1%R 1%R false.
Definition b : Sim.MassiveBody R :=
  Sim.mkBody 2 [4; 0]%R [0; 2]%R [0; 0]%R 3%R 1%R false.
Definition sun : Sim.MassiveBody R :=
  Sim.mkBody 3 [7; 7]%R [0; 0]%R [0; 0]%R 500%R 9%R true.
End Group.

(** * Properties *)

(** ** The body map *)

Section MapFacts.
Context {num : Type} `{Number num}.
Implicit Types (k : Z) (b : Sim.MassiveBody num) (l : Sim.BodyList num).

Lemma get_set_same k b l : Sim.get k (Sim.set k b l) = Some b.
Proof.
  induction l as [|[k' b'] l IH]; simpl.
  - now rewrite Z.eqb_refl.
  - destruct (Z.eqb_spec k k') as [->|Hne]; simpl.
    + now rewrite Z.eqb_refl.
    + destruct (Z.eqb_spec k k'); [contradiction | exact IH].
Qed.

Lemma get_set_other k k' b l :
  k <> k' -> Sim.get k (Sim.set k' b l) = Sim.get k l.
Proof.
  intros Hne. induction l as [|[k0 b0] l IH]; simpl.
  - destruct (Z.eqb_spec k k'); [contradiction | reflexivity].
  - destruct (Z.eqb_spec k' k0) as [->|Hne0]; simpl.
    + destruct (Z.eqb_spec k k0); [contradiction | reflexivity].
    + destruct (Z.eqb_spec k k0); [reflexivity | exact IH].
Qed.

Lemma get_None_iff k l : Sim.get k l = None <-> ~ In k (Sim.keys l).
Proof.
  induction l as [|[k' b'] l IH]; simpl.
  - tauto.
  - destruct (Z.eqb_spec k k') as [->|Hne].
    + split; [discriminate | intros Hn; exfalso; apply Hn; now left].
    + rewrite IH. split.
      * intros Hn [Heq | Hin]; [now apply Hne | now apply Hn].
      * intros Hn Hin. apply Hn. now right.
Qed.

Lemma get_Some_In k b l : Sim.get k l = Some b -> In k (Sim.keys l).
Proof.
  intros Hget. destruct (in_dec Z.eq_dec k (Sim.keys l)) as [Hin | Hout]; [exact Hin|].
  apply get_None_iff in Hout. congruence.
Qed.

Lemma keys_set_present k b l :
  In k (Sim.keys l) -> Sim.keys (Sim.set k b l) = Sim.keys l.
Proof.
  induction l as [|[k' b'] l IH]; simpl; [tauto|].
  intros Hin. destruct (Z.eqb_spec k k') as [->|Hne]; simpl; [reflexivity|].
  f_equal. apply IH. destruct Hin as [Heq | Hin]; [now symmetry in Heq | exact Hin].
Qed.

Lemma keys_set_fresh k b l :
  ~ In k (Sim.keys l) -> Sim.keys (Sim.set k b l) = Sim.keys l ++ [k].
Proof.
  induction l as [|[k' b'] l IH]; simpl; [reflexivity|].
  intros Hout. destruct (Z.eqb_spec k k') as [->|Hne]; simpl.
  - exfalso. apply Hout. now left.
  - f_equal. apply IH. intros Hin. apply Hout. now right.
Qed.

Lemma keys_delete k l :
  Sim.keys (Sim.delete k l) = filter (fun x => negb (Z.eqb k x)) (Sim.keys l).
Proof.
  induction l as [|[k' b'] l IH]; simpl; [reflexivity|].
  destruct (Z.eqb k k'); simpl; [exact IH | now rewrite IH].
Qed.

Lemma get_delete_same k l : Sim.get k (Sim.delete k l) = None.
Proof.
  apply get_None_iff. rewrite keys_delete, filter_In.
  intros [_ Hk]. now rewrite Z.eqb_refl in Hk.
Qed.

Lemma get_delete_other k k' l :
  k <> k' -> Sim.get k (Sim.delete k' l) = Sim.get k l.
Proof.
  intros Hne. induction l as [|[k0 b0] l IH]; simpl; [reflexivity|].
  destruct (Z.eqb_spec k' k0) as [->|Hne0]; simpl.
  - destruct (Z.eqb_spec k k0); [contradiction | exact IH].
  - now rewrite IH.
Qed.

Lemma NoDup_keys_set k b l :
  NoDup (Sim.keys l) -> NoDup (Sim.keys (Sim.set k b l)).
Proof.
  intros Hnd. destruct (in_dec Z.eq_dec k (Sim.keys l)) as [Hin | Hout].
  - now rewrite keys_set_present.
  - rewrite keys_set_fresh by exact Hout.
    apply NoDup_app; [exact Hnd | repeat constructor; simpl; tauto |].
    intros x Hx [<- | []]. now apply Hout.
Qed.

Lemma NoDup_keys_delete k l :
  NoDup (Sim.keys l) -> NoDup (Sim.keys (Sim.delete k l)).
Proof. intros Hnd. rewrite keys_delete. now apply NoDup_filter. Qed.

End MapFacts.

(** ** Division by a zero scalar *)

(** C4, as the code has it: [div] by the scalar [0] (of either sign) writes
    "Div by 0" to the error console and returns, as a normal result, every
    component divided by zero; it never fails. *)
Theorem div_zero_logs_and_returns (v : list float) :
  NVec.div v 0%float
    = Normal ["Div by 0"%string] (map (fun c => c / 0)%float v)
  /\ NVec.div v (-0)%float
    = Normal ["Div by 0"%string] (map (fun c => c / -0)%float v)
  /\ ~ div_fails_on_zero v.
Proof.
  repeat split; try reflexivity.
  unfold div_fails_on_zero, NVec.div. discriminate.
Qed.

(** C4 does not hold of the code: dividing [[1; 0; -1]] by [0] completes
    normally with the components [Infinity], [NaN] and [-Infinity]. *)
Lemma div_zero_returns_infinite_and_nan :
  NVec.div [1; 0; -1]%float 0%float
    = Normal ["Div by 0"%string] [infinity; nan; neg_infinity]
  /\ ~ div_fails_on_zero [1; 0; -1]%float.
Proof.
  split; [reflexivity|].
  unfold div_fails_on_zero, NVec.div. discriminate.
Qed.

(** ** addBody *)

(** C9, as the code has it: [addBody] never fails and writes nothing to the
    console.  The body is afterwards the one stored under its id, every other
    id keeps its body, and ids stay unique; when the id was already live the
    set of live ids is unchanged, the former body having been replaced. *)
Theorem addBody_replaces_silently {num : Type} `{Number num}
  (body : Sim.MassiveBody num) (bodies : Sim.BodyList num) :
  NoDup (Sim.keys bodies) ->
  exists bodies',
    Sim.addBody body bodies = Normal [] bodies'
    /\ Sim.get (Sim.id body) bodies' = Some body
    /\ (forall k, k <> Sim.id body -> Sim.get k bodies' = Sim.get k bodies)
    /\ NoDup (Sim.keys bodies')
    /\ (In (Sim.id body) (Sim.keys bodies) -> Sim.keys bodies' = Sim.keys bodies).
Proof.
  intros Hnd. exists (Sim.set (Sim.id body) body bodies).
  split; [reflexivity|].
  split; [apply get_set_same|].
  split; [intros k Hk; now apply get_set_other|].
  split; [now apply NoDup_keys_set | apply keys_set_present].
Qed.

Lemma addBody_replaces_silently_witness :
  NoDup (Sim.keys Dup.live) /\
  exists bodies',
    Sim.addBody Dup.second Dup.live = Normal [] bodies'
    /\ Sim.get (Sim.id Dup.second) bodies' = Some Dup.second
    /\ (forall k, k <> Sim.id Dup.second -> Sim.get k bodies' = Sim.get k Dup.live)
    /\ NoDup (Sim.keys bodies')
    /\ (In (Sim.id Dup.second) (Sim.keys Dup.live) -> Sim.keys bodies' = Sim.keys Dup.live).
Proof.
  assert (Hnd : NoDup (Sim.keys Dup.live)).
  { simpl. constructor; [simpl; tauto | constructor]. }
  split; [exact Hnd | exact (addBody_replaces_silently Dup.second Dup.live Hnd)].
Defined.

(** C9 does not hold of the code: adding a second body under the live id 7
    completes normally, with an empty console, and the first body is gone. *)
Lemma addBody_duplicate_is_accepted :
  In (Sim.id Dup.second) (Sim.keys Dup.live)
  /\ Sim.addBody Dup.second Dup.live = Normal [] [(7%Z, Dup.second)]
  /\ ~ addBody_rejects_duplicate Dup.second Dup.live.
Proof.
  split; [simpl; now left|].
  split; [reflexivity|].
  intros Hclaim. destruct Hclaim as [e He]; [simpl; now left|].
  discriminate He.
Qed.

(** ** One evaluated pair *)

Section PairFacts.
Context {num : Type} `{Number num}.
Implicit Types (k : Z) (b : Sim.MassiveBody num) (st : Sim.Pass num).

Lemma evalPair_colliding k k2 b1 b2 st :
  Sim.get k (Sim.bodies st) = Some b1 ->
  Sim.get k2 (Sim.bodies st) = Some b2 ->
  Sim.colliding b1 b2 = true ->
  Sim.evalPair k k2 st = Sim.collide b1 b2 st.
Proof.
  intros H1 H2 Hc. unfold Sim.evalPair. now rewrite H2, H1, Hc.
Qed.

Lemma evalPair_apart k k2 b1 b2 st :
  Sim.get k (Sim.bodies st) = Some b1 ->
  Sim.get k2 (Sim.bodies st) = Some b2 ->
  Sim.colliding b1 b2 = false ->
  Sim.evalPair k k2 st = Sim.attract k k2 b1 b2 st.
Proof.
  intros H1 H2 Hc. unfold Sim.evalPair. now rewrite H2, H1, Hc.
Qed.

Lemma collide_bodies b1 b2 st :
  Sim.bodies (Sim.collide b1 b2 st) = Sim.bodies st.
Proof.
  unfold Sim.collide.
  destruct (Sim.getCollisionWith (Sim.collisions st) b1 b2) as [i|]; [|reflexivity].
  destruct (Sim.includes _ b1); [reflexivity|].
  destruct (Sim.includes _ b2); reflexivity.
Qed.

End PairFacts.

(** *** What the force pass leaves alone *)

Section PassFrame.
Context {num : Type} `{Number num}.
Implicit Types (k : Z) (b : Sim.MassiveBody num) (st : Sim.Pass num).

Lemma frozen_attract1 b1 b2 : frozen (Sim.attract1 b1 b2) = frozen b1.
Proof. unfold Sim.attract1. now destruct (Sim.isStatic b1). Qed.

Lemma frozen_attract2 b1 b2 : frozen (Sim.attract2 b1 b2) = frozen b2.
Proof. unfold Sim.attract2. now destruct (Sim.isStatic b2). Qed.

Lemma frozen_set k b b' (l : Sim.BodyList num) k' :
  Sim.get k l = Some b -> frozen b' = frozen b ->
  option_map frozen (Sim.get k' (Sim.set k b' l)) = option_map frozen (Sim.get k' l).
Proof.
  intros Hget Hfr. destruct (Z.eq_dec k' k) as [->|Hne].
  - rewrite get_set_same, Hget. simpl. now rewrite Hfr.
  - now rewrite get_set_other.
Qed.

(** One pair: the map keeps its keys, in order, and each body keeps
    everything but [acc]. *)
Lemma evalPair_keys k k2 st :
  Sim.keys (Sim.bodies (Sim.evalPair k k2 st)) = Sim.keys (Sim.bodies st).
Proof.
  unfold Sim.evalPair.
  destruct (Sim.get k2 (Sim.bodies st)) as [b2|] eqn:H2; [|reflexivity].
  destruct (Sim.get k (Sim.bodies st)) as [b1|] eqn:H1; [|reflexivity].
  destruct (Sim.colliding b1 b2); [now rewrite collide_bodies|].
  unfold Sim.attract. cbn [Sim.bodies].
  assert (Hk : Sim.keys (Sim.set k (Sim.attract1 b1 b2) (Sim.bodies st))
               = Sim.keys (Sim.bodies st))
    by (apply keys_set_present; eapply get_Some_In; exact H1).
  rewrite keys_set_present; [exact Hk|].
  rewrite Hk. eapply get_Some_In; exact H2.
Qed.

Lemma evalPair_frozen k k2 st k' :
  option_map frozen (Sim.get k' (Sim.bodies (Sim.evalPair k k2 st)))
    = option_map frozen (Sim.get k' (Sim.bodies st)).
Proof.
  unfold Sim.evalPair.
  destruct (Sim.get k2 (Sim.bodies st)) as [b2|] eqn:H2; [|reflexivity].
  destruct (Sim.get k (Sim.bodies st)) as [b1|] eqn:H1; [|reflexivity].
  destruct (Sim.colliding b1 b2); [now rewrite collide_bodies|].
  unfold Sim.attract. cbn [Sim.bodies].
  destruct (Z.eq_dec k' k2) as [->|Hne2].
  - rewrite get_set_same. simpl. rewrite frozen_attract2, H2. reflexivity.
  - rewrite get_set_other by exact Hne2.
    apply (frozen_set _ _ _ _ _ H1 (frozen_attract1 b1 b2)).
Qed.

Lemma inner_keys k later st :
  Sim.keys (Sim.bodies (Sim.inner k later st)) = Sim.keys (Sim.bodies st).
Proof.
  unfold Sim.inner. revert st.
  induction later as [|k2 later IH]; intros st; simpl; [reflexivity|].
  rewrite IH. apply evalPair_keys.
Qed.

Lemma inner_frozen k later st k' :
  option_map frozen (Sim.get k' (Sim.bodies (Sim.inner k later st)))
    = option_map frozen (Sim.get k' (Sim.bodies st)).
Proof.
  unfold Sim.inner. revert st.
  induction later as [|k2 later IH]; intros st; simpl; [reflexivity|].
  rewrite IH. apply evalPair_frozen.
Qed.

Lemma outer_keys bodyKeys st :
  Sim.keys (Sim.bodies (Sim.outer bodyKeys st)) = Sim.keys (Sim.bodies st).
Proof.
  revert st. induction bodyKeys as [|k later IH]; intros st; simpl; [reflexivity|].
  rewrite IH. apply inner_keys.
Qed.

Lemma outer_frozen bodyKeys st k' :
  option_map frozen (Sim.get k' (Sim.bodies (Sim.outer bodyKeys st)))
    = option_map frozen (Sim.get k' (Sim.bodies st)).
Proof.
  revert st. induction bodyKeys as [|k later IH]; intros st; simpl; [reflexivity|].
  rewrite IH. apply inner_frozen.
Qed.

Lemma existsb_either (A : Type) (f g : A -> bool) (xs : list A) :
  existsb (fun x => f x || g x) xs = existsb f xs || existsb g xs.
Proof.
  induction xs as [|x xs IH]; simpl; [reflexivity|].
  rewrite IH. destruct (f x), (g x), (existsb f xs), (existsb g xs); reflexivity.
Qed.

(** A group that [getCollisionWith] returns holds one of the two bodies: the
    branch that logs "wut" is never taken. *)
Lemma getCollisionWith_includes (cs : list (list (Sim.MassiveBody num))) b1 b2 i :
  Sim.getCollisionWith cs b1 b2 = Some i ->
  Sim.includes (nth i cs []) b1 || Sim.includes (nth i cs []) b2 = true.
Proof.
  revert i. induction cs as [|c cs IH]; intros i; simpl; [discriminate|].
  destruct (existsb (fun b => Sim.eq b b1 || Sim.eq b b2) c) eqn:Hex.
  - intros [= <-]. unfold Sim.includes, Sim.eq in *.
    rewrite <- existsb_either. exact Hex.
  - destruct (Sim.getCollisionWith cs b1 b2) as [j|]; [|discriminate].
    intros [= <-]. now apply IH.
Qed.

Lemma push_at_pairs_or_more i b cs :
  pairs_or_more cs -> pairs_or_more (Sim.push_at i b cs).
Proof.
  unfold pairs_or_more. revert i.
  induction cs as [|c cs IH]; intros i Hall; [destruct i; constructor|].
  inversion Hall as [|? ? Hc Hcs]; subst.
  destruct i as [|i]; simpl; constructor; auto.
  rewrite length_app. simpl. lia.
Qed.

Lemma collide_pairs_or_more b1 b2 st :
  pairs_or_more (Sim.collisions st) ->
  pairs_or_more (Sim.collisions (Sim.collide b1 b2 st)).
Proof.
  intros Hall. unfold Sim.collide.
  destruct (Sim.getCollisionWith (Sim.collisions st) b1 b2) as [i|].
  - destruct (Sim.includes _ b1); [now apply push_at_pairs_or_more|].
    destruct (Sim.includes _ b2); [now apply push_at_pairs_or_more | exact Hall].
  - cbn [Sim.collisions]. apply Forall_app. split; [exact Hall|].
    constructor; [simpl; lia | constructor].
Qed.

Lemma evalPair_pairs_or_more k k2 st :
  pairs_or_more (Sim.collisions st) ->
  pairs_or_more (Sim.collisions (Sim.evalPair k k2 st)).
Proof.
  intros Hall. unfold Sim.evalPair.
  destruct (Sim.get k2 (Sim.bodies st)) as [b2|]; [|exact Hall].
  destruct (Sim.get k (Sim.bodies st)) as [b1|]; [|exact Hall].
  destruct (Sim.colliding b1 b2); [now apply collide_pairs_or_more | exact Hall].
Qed.

Lemma outer_pairs_or_more bodyKeys st :
  pairs_or_more (Sim.collisions st) ->
  pairs_or_more (Sim.collisions (Sim.outer bodyKeys st)).
Proof.
  revert st. induction bodyKeys as [|k later IH]; intros st Hall; simpl; [exact Hall|].
  apply IH. unfold Sim.inner. clear IH. revert st Hall.
  induction later as [|k2 later IH]; intros st Hall; simpl; [exact Hall|].
  apply IH. now apply evalPair_pairs_or_more.
Qed.

(** The groups handed to [handleCollisions] have two entries or more. *)
Lemma forcePass_pairs_or_more (live : Sim.BodyList num) (out : list string) :
  pairs_or_more (Sim.collisions (Sim.forcePass live out)).
Proof. apply outer_pairs_or_more. constructor. Qed.

(** The whole pass: the live set is the one it started with, and only the
    accelerations may have changed. *)
Lemma forcePass_keys (live : Sim.BodyList num) (out : list string) :
  Sim.keys (Sim.bodies (Sim.forcePass live out)) = Sim.keys live.
Proof. unfold Sim.forcePass. now rewrite outer_keys. Qed.

Lemma forcePass_frozen (live : Sim.BodyList num) (out : list string) k :
  option_map frozen (Sim.get k (Sim.bodies (Sim.forcePass live out)))
    = option_map frozen (Sim.get k live).
Proof. unfold Sim.forcePass. now rewrite outer_frozen. Qed.

End PassFrame.

(** C10: evaluating a pair that the collision test flags leaves the body map
    as it was, so both bodies keep the acceleration they had. *)
Theorem colliding_pair_keeps_accelerations {num : Type} `{Number num}
  (k k2 : Z) (b1 b2 : Sim.MassiveBody num) (st : Sim.Pass num) :
  Sim.get k (Sim.bodies st) = Some b1 ->
  Sim.get k2 (Sim.bodies st) = Some b2 ->
  Sim.colliding b1 b2 = true ->
  Sim.bodies (Sim.evalPair k k2 st) = Sim.bodies st
  /\ option_map Sim.acc (Sim.get k (Sim.bodies (Sim.evalPair k k2 st))) = Some (Sim.acc b1)
  /\ option_map Sim.acc (Sim.get k2 (Sim.bodies (Sim.evalPair k k2 st))) = Some (Sim.acc b2).
Proof.
  intros H1 H2 Hc.
  rewrite (evalPair_colliding _ _ _ _ _ H1 H2 Hc), collide_bodies, H1, H2.
  repeat split.
Qed.

Lemma colliding_pair_keeps_accelerations_witness :
  Sim.colliding Close.b1 Close.b2 = true
  /\ Sim.bodies (Sim.evalPair 1 2 Close.st) = Sim.bodies Close.st
  /\ option_map Sim.acc (Sim.get 1 (Sim.bodies (Sim.evalPair 1 2 Close.st)))
       = Some [0.5; 0.25]%float
  /\ option_map Sim.acc (Sim.get 2 (Sim.bodies (Sim.evalPair 1 2 Close.st)))
       = Some [-1; 2]%float.
Proof.
  split; [vm_compute; reflexivity|].
  apply (colliding_pair_keeps_accelerations 1%Z 2%Z Close.b1 Close.b2 Close.st);
    vm_compute; reflexivity.
Defined.

(** ** The collision test *)

Lemma Rltb_true_iff (x y : R) : Rltb x y = true <-> (x < y)%R.
Proof.
  unfold Rltb. destruct (Rlt_dec x y); split; intros; auto; discriminate.
Qed.


Section Flagging.
Context {num : Type} `{Number num}.
Implicit Types (k : Z) (b : Sim.MassiveBody num) (st : Sim.Pass num)
  (c : list (Sim.MassiveBody num)) (cs : list (list (Sim.MassiveBody num))).

Lemma getCollisionWith_bound cs b1 b2 i :
  Sim.getCollisionWith cs b1 b2 = Some i -> (i < List.length cs)%nat.
Proof.
  revert i. induction cs as [|c cs IH]; intros i; simpl; [discriminate|].
  destruct (existsb _ c); [intros [= <-]; lia|].
  destruct (Sim.getCollisionWith cs b1 b2) as [j|]; [|discriminate].
  intros [= <-]. specialize (IH j Logic.eq_refl). lia.
Qed.

Lemma nth_push_at i b cs :
  (i < List.length cs)%nat ->
  nth i (Sim.push_at i b cs) [] = nth i cs [] ++ [b]
  /\ List.length (Sim.push_at i b cs) = List.length cs
  /\ List.length (List.concat (Sim.push_at i b cs))
       = S (List.length (List.concat cs)).
Proof.
  revert i. induction cs as [|c cs IH]; intros i Hi; [simpl in Hi; lia|].
  destruct i as [|i]; simpl.
  - repeat split. rewrite !length_app. simpl. lia.
  - destruct (IH i) as (Hnth & Hlen & Hcat); [simpl in Hi; lia|].
    repeat split; [exact Hnth | now rewrite Hlen|].
    rewrite !length_app, Hcat. lia.
Qed.

Lemma includes_app c c' b :
  Sim.includes (c ++ c') b = Sim.includes c b || Sim.includes c' b.
Proof. unfold Sim.includes. apply existsb_app. Qed.

Lemma includes_last c b : Sim.includes (c ++ [b]) b = true.
Proof.
  rewrite includes_app. unfold Sim.includes at 2. simpl.
  rewrite Z.eqb_refl. now rewrite orb_true_r.
Qed.

Lemma pushed_is_flagged i b b' st ids out :
  (i < List.length (Sim.collisions st))%nat ->
  Sim.includes (nth i (Sim.collisions st) []) b = true ->
  let st' := Sim.mkPass (Sim.bodies st) (Sim.push_at i b' (Sim.collisions st)) ids out in
  Sim.collisions st' <> Sim.collisions st
  /\ exists group,
       In group (Sim.collisions st')
       /\ Sim.includes group b = true /\ Sim.includes group b' = true.
Proof.
  intros Hi Hb st'. subst st'. cbn [Sim.collisions].
  destruct (nth_push_at i b' (Sim.collisions st) Hi) as (Hnth & Hlen & Hcat).
  split.
  - intros Heq. rewrite Heq in Hcat. lia.
  - exists (nth i (Sim.push_at i b' (Sim.collisions st)) []). split.
    + apply nth_In. now rewrite Hlen.
    + rewrite Hnth. split; [|apply includes_last].
      rewrite includes_app, Hb. reflexivity.
Qed.

Lemma collide_flags b1 b2 st : flagged b1 b2 st (Sim.collide b1 b2 st).
Proof.
  unfold flagged, Sim.collide.
  destruct (Sim.getCollisionWith (Sim.collisions st) b1 b2) as [i|] eqn:Hfound.
  - pose proof (getCollisionWith_bound _ _ _ _ Hfound) as Hi.
    pose proof (getCollisionWith_includes _ _ _ _ Hfound) as Hincl.
    destruct (Sim.includes (nth i (Sim.collisions st) []) b1) eqn:H1.
    + now apply pushed_is_flagged.
    + simpl in Hincl. rewrite Hincl.
      destruct (pushed_is_flagged i b2 b1 st
                  (Sim.collidedIds st ++ [Sim.id b1; Sim.id b2]) (Sim.console st)
                  Hi Hincl) as (Hne & group & Hin & Hg2 & Hg1).
      split; [exact Hne|]. exists group. auto.
  - cbn [Sim.collisions]. split.
    + intros Heq. apply (f_equal (@List.length _)) in Heq.
      rewrite length_app in Heq. simpl in Heq. lia.
    + exists [b1; b2]. split; [apply in_or_app; right; now left|].
      unfold Sim.includes. simpl. rewrite !Z.eqb_refl.
      split; [reflexivity | now rewrite orb_true_r].
Qed.

(** The pair is recorded exactly when the test of line 108 succeeds. *)
Lemma evalPair_flagged_iff k k2 b1 b2 st :
  Sim.get k (Sim.bodies st) = Some b1 ->
  Sim.get k2 (Sim.bodies st) = Some b2 ->
  flagged b1 b2 st (Sim.evalPair k k2 st) <-> Sim.colliding b1 b2 = true.
Proof.
  intros H1 H2. destruct (Sim.colliding b1 b2) eqn:Hc.
  - rewrite (evalPair_colliding _ _ _ _ _ H1 H2 Hc).
    split; [reflexivity | intros _; apply collide_flags].
  - rewrite (evalPair_apart _ _ _ _ _ H1 H2 Hc). split; [|discriminate].
    intros [Hne _]. now contradiction Hne.
Qed.

End Flagging.

(** In doubles, numbers that compare equal do not compare less. *)
Lemma SFeqb_not_ltb (s t : SpecFloat.spec_float) :
  SpecFloat.SFeqb s t = true -> SpecFloat.SFltb s t = false.
Proof.
  unfold SpecFloat.SFeqb, SpecFloat.SFltb.
  destruct (SpecFloat.SFcompare s t) as [[| |]|]; intros Heq;
    try discriminate Heq; reflexivity.
Qed.

Lemma equal_is_not_less (x y : float) :
  PrimFloat.eqb x y = true -> PrimFloat.ltb x y = false.
Proof.
  rewrite FloatAxioms.eqb_spec, FloatAxioms.ltb_spec. apply SFeqb_not_ltb.
Qed.

(** C5, in the doubles the program computes with.  For two live
    2-dimensional bodies stored under different keys, with
    [scaled = sqrt (0 + dx * dx + dy * dy) * 6500] and
    [limit = (r1 + r2) * 400] as lines 104-108 compute them: the evaluation
    of the pair records it in the collision groups exactly when
    [scaled < limit]; otherwise it records nothing and adds
    [(dx, dy) / (sq * scaled) * m2] to the acceleration of the first body and
    subtracts [(dx, dy) / (sq * scaled) * m1] from that of the second, a
    static body excepted; and a scaled distance equal to the limit is not
    below it. *)
Theorem collision_test_is_strict
  (k k2 i1 i2 : Z) (x1 y1 x2 y2 ax1 ay1 ax2 ay2 m1 m2 r1 r2 : float)
  (v1 v2 : list float) (s1 s2 : bool) (st : Sim.Pass float) :
  let b1 := Sim.mkBody i1 [x1; y1] v1 [ax1; ay1] m1 r1 s1 in
  let b2 := Sim.mkBody i2 [x2; y2] v2 [ax2; ay2] m2 r2 s2 in
  Sim.get k (Sim.bodies st) = Some b1 ->
  Sim.get k2 (Sim.bodies st) = Some b2 ->
  k <> k2 ->
  let dx := (x2 - x1)%float in
  let dy := (y2 - y1)%float in
  let sq := (0 + dx * dx + dy * dy)%float in
  let scaled := (PrimFloat.sqrt sq * 6500)%float in
  let limit := ((r1 + r2) * 400)%float in
  let st' := Sim.evalPair k k2 st in
  (flagged b1 b2 st st' <-> (scaled <? limit)%float = true)
  /\ ((scaled <? limit)%float = false ->
      ~ flagged b1 b2 st st'
      /\ Sim.collisions st' = Sim.collisions st
      /\ Sim.get k (Sim.bodies st')
           = Some (if s1 then b1
                   else Sim.mkBody i1 [x1; y1] v1
                          [ax1 + dx / (sq * scaled) * m2;
                           ay1 + dy / (sq * scaled) * m2]%float m1 r1 s1)
      /\ Sim.get k2 (Sim.bodies st')
           = Some (if s2 then b2
                   else Sim.mkBody i2 [x2; y2] v2
                          [ax2 - dx / (sq * scaled) * m1;
                           ay2 - dy / (sq * scaled) * m1]%float m2 r2 s2))
  /\ ((scaled =? limit)%float = true -> (scaled <? limit)%float = false).
Proof.
  intros b1 b2 H1 H2 Hne dx dy sq scaled limit st'.
  assert (Hcol : Sim.colliding b1 b2 = (scaled <? limit)%float) by reflexivity.
  split; [|split].
  - subst st'. rewrite <- Hcol. now apply evalPair_flagged_iff.
  - intros Hfalse. rewrite <- Hcol in Hfalse. subst st'.
    rewrite (evalPair_apart _ _ _ _ _ H1 H2 Hfalse).
    split; [intros [Hchanged _]; now contradiction Hchanged|].
    split; [reflexivity|].
    unfold Sim.attract. cbn [Sim.bodies]. split.
    + rewrite get_set_other by exact Hne. rewrite get_set_same.
      subst b1 b2. destruct s1; reflexivity.
    + rewrite get_set_same. subst b1 b2. destruct s2; reflexivity.
  - apply equal_is_not_less.
Qed.

(** At equality in doubles both bodies are accelerated, by [8 * 20 / (64 * 52000)] and [8 * 10 / (64 * 52000)]. *)
Example tie_in_doubles :
  Sim.collidedIds (Sim.evalPair 1 2 Edge.st) = []
  /\ Sim.collisions (Sim.evalPair 1 2 Edge.st) = []
  /\ map (fun kb => Sim.acc (snd kb)) (Sim.bodies (Sim.evalPair 1 2 Edge.st))
       = [[160 / 3328000; 0]; [- (80 / 3328000); 0]]%float.
Proof. repeat split; vm_compute; reflexivity. Qed.

Lemma collision_test_is_strict_witness :
  (PrimFloat.sqrt (0 + (8 - 0) * (8 - 0) + (0 - 0) * (0 - 0)) * 6500 =? (65 + 65) * 400)%float = true
  /\ ~ flagged (Pile.body 1 0 10) (Pile.body 2 8 20) Edge.st (Sim.evalPair 1 2 Edge.st)
  /\ Sim.get 1 (Sim.bodies (Sim.evalPair 1 2 Edge.st))
       = Some (Sim.mkBody 1 [0; 0] [0; 0] [8 / (64 * 52000) * 20; 0] 10 65 false)%float
  /\ Sim.get 2 (Sim.bodies (Sim.evalPair 1 2 Edge.st))
       = Some (Sim.mkBody 2 [8; 0] [0; 0] [- (8 / (64 * 52000) * 10); 0] 20 65 false)%float.
Proof.
  assert (Htie : (PrimFloat.sqrt (0 + (8 - 0) * (8 - 0) + (0 - 0) * (0 - 0)) * 6500
                  =? (65 + 65) * 400)%float = true) by (vm_compute; reflexivity).
  destruct (collision_test_is_strict 1 2 1 2 0 0 8 0 0 0 0 0 10 20 65 65
              [0; 0]%float [0; 0]%float false false Edge.st
              Logic.eq_refl Logic.eq_refl ltac:(lia)) as (_ & Helse & Hequal).
  destruct (Helse (Hequal Htie)) as (Hnot & _ & Hfirst & Hsecond).
  split; [exact Htie|]. split; [exact Hnot|]. split; [exact Hfirst | exact Hsecond].
Defined.

(** ** The acceleration factor of a pair *)

(** Two lists of doubles differ when an observation [g] tells them apart. *)
Ltac told_apart_by g :=
  let Heq := fresh "Heq" in
  intros Heq; apply (f_equal g) in Heq; vm_compute in Heq; discriminate Heq.

(** C1 fails on the code.  The divisor of line 131 is
    [distanceSquared * distance], and [distance] is the magnitude already
    multiplied by [DISTANCE_SCALE]; so the factor is the displacement over
    [magnitudeSquared * (magnitude * 6500)].  For the displacement [(3, 4)]
    of a pair that is not colliding the code computes [(3, 4) / 812500]
    where the claim has [(3, 4) / 125]. *)
Theorem accFactor_divides_by_DISTANCE_SCALE :
  (forall (num : Type) (N : Number num) (b1 b2 : Sim.MassiveBody num),
      let r := NVec.sub (Sim.pos b2) (Sim.pos b1) in
      Sim.accFactor b1 b2
        = NVec.div_value r
            (NVec.magnitudeSquared r * (NVec.magnitude r * lit 6500))%num)
  /\ Sim.colliding Apart.b1 Apart.b2 = false
  /\ Sim.accFactor Apart.b1 Apart.b2 = [3 / 812500; 4 / 812500]%float
  /\ accFactor_unscaled Apart.b1 Apart.b2 = [3 / 125; 4 / 125]%float
  /\ Sim.accFactor Apart.b1 Apart.b2 <> accFactor_unscaled Apart.b1 Apart.b2.
Proof.
  split; [reflexivity|].
  split; [vm_compute; reflexivity|].
  split; [vm_compute; reflexivity|].
  split; [vm_compute; reflexivity|].
  told_apart_by (fun v : list float => PrimFloat.ltb (hd 0%float v) (1 / 1000)%float).
Qed.

(** ** Collision groups *)

(** C3 fails on the code.  [getCollisionWith] returns the first group that
    holds either body and the caller pushes the other body into it without
    looking further.  When both bodies are already in that group the second
    is pushed again (bodies 1, 2, 3 all touching: the group is 1, 2, 3, 3);
    when they are in two groups the groups stay apart and one body is in
    both (the chain: groups 1, 3, 4 and 2, 4).  The merge then counts the
    repeated body's mass twice: 90 from masses 10, 20, 30, and 80 and 60 from
    masses 10, 20, 30, 40. *)
Theorem union_of_groups_misses_cases :
  groupIds (Sim.forcePass Pile.three []) = [[1; 2; 3; 3]]%Z
  /\ ~ one_group_each (groupIds (Sim.forcePass Pile.three []))
  /\ masses (Sim.updateAcceleration2 Pile.model (Sim.mkWorld Pile.three 4 []))
       = [(4%Z, 90%float)]
  /\ groupIds (Sim.forcePass Pile.chain []) = [[1; 3; 4]; [2; 4]]%Z
  /\ ~ one_group_each (groupIds (Sim.forcePass Pile.chain []))
  /\ masses (Sim.updateAcceleration2 Pile.model (Sim.mkWorld Pile.chain 5 []))
       = [(5%Z, 80%float); (6%Z, 60%float)].
Proof.
  assert (H3 : groupIds (Sim.forcePass Pile.three []) = [[1; 2; 3; 3]]%Z)
    by (vm_compute; reflexivity).
  assert (H4 : groupIds (Sim.forcePass Pile.chain []) = [[1; 3; 4]; [2; 4]]%Z)
    by (vm_compute; reflexivity).
  split; [exact H3|].
  split.
  { rewrite H3. unfold one_group_each. simpl. intros Hnd.
    inversion Hnd as [|? ? _ Hnd1]; subst. inversion Hnd1 as [|? ? _ Hnd2]; subst.
    inversion Hnd2 as [|? ? Hin _]; subst. apply Hin. now left. }
  split; [vm_compute; reflexivity|].
  split; [exact H4|].
  split.
  { rewrite H4. unfold one_group_each. simpl. intros Hnd.
    inversion Hnd as [|? ? _ Hnd1]; subst. inversion Hnd1 as [|? ? _ Hnd2]; subst.
    inversion Hnd2 as [|? ? Hin _]; subst. apply Hin. simpl. tauto. }
  vm_compute; reflexivity.
Qed.

(** ** Resolving the groups *)

Section MergeFacts.
Context {num : Type} `{Number num}.
Implicit Types (k : Z) (b : Sim.MassiveBody num) (l : Sim.BodyList num)
  (coll : list (Sim.MassiveBody num)) (groups : list (list (Sim.MassiveBody num))).

Lemma outside_true coll k :
  outside coll k = true <-> (forall b, In b coll -> Sim.id b <> k).
Proof.
  unfold outside. rewrite negb_true_iff. split.
  - intros Hex b Hin Heq.
    assert (Ht : existsb (fun b0 => Z.eqb (Sim.id b0) k) coll = true).
    { apply existsb_exists. exists b. split; [exact Hin | now apply Z.eqb_eq]. }
    congruence.
  - intros Hall. destruct (existsb _ coll) eqn:Hex; [|reflexivity].
    apply existsb_exists in Hex. destruct Hex as [b [Hin Heq]].
    apply Z.eqb_eq in Heq. now apply Hall in Hin.
Qed.

Lemma outside_app coll coll' k :
  outside (coll ++ coll') k = outside coll k && outside coll' k.
Proof. unfold outside. now rewrite existsb_app, negb_orb. Qed.

Lemma filter_twice (A : Type) (f g : A -> bool) (xs : list A) :
  filter f (filter g xs) = filter (fun x => g x && f x) xs.
Proof.
  induction xs as [|x xs IH]; simpl; [reflexivity|].
  destruct (g x); simpl; [destruct (f x); now rewrite IH | exact IH].
Qed.

Lemma filter_all (A : Type) (f : A -> bool) (xs : list A) :
  (forall x, f x = true) -> filter f xs = xs.
Proof.
  intros Hf. induction xs as [|x xs IH]; simpl; [reflexivity|].
  now rewrite Hf, IH.
Qed.

Lemma keys_deleteAll coll l :
  Sim.keys (Sim.deleteAll coll l) = filter (outside coll) (Sim.keys l).
Proof.
  revert l. induction coll as [|b coll IH]; intros l; simpl.
  - symmetry. now apply filter_all.
  - unfold Sim.deleteAll in *. simpl. rewrite IH, keys_delete, filter_twice.
    apply filter_ext. intros k. unfold outside. simpl. now rewrite negb_orb.
Qed.

Lemma get_deleteAll_outside coll l k :
  outside coll k = true -> Sim.get k (Sim.deleteAll coll l) = Sim.get k l.
Proof.
  revert l. induction coll as [|b coll IH]; intros l Hout; [reflexivity|].
  unfold outside in Hout. simpl in Hout. rewrite negb_orb in Hout.
  apply andb_true_iff in Hout. destruct Hout as [Hb Hrest].
  unfold Sim.deleteAll in *. simpl. rewrite IH by exact Hrest.
  apply get_delete_other. apply negb_true_iff, Z.eqb_neq in Hb. congruence.
Qed.

Lemma handleCollisions_nextId M groups l next :
  snd (Sim.handleCollisions M groups l next) = (next + Z.of_nat (List.length groups))%Z.
Proof.
  revert l next. induction groups as [|coll groups IH]; intros l next.
  - simpl. lia.
  - cbn [Sim.handleCollisions Sim.newMassiveBody Sim.id List.length]. rewrite IH. lia.
Qed.

(** A key below the id counter that is no member's id is left alone. *)
Lemma handleCollisions_get_outside M groups l next k :
  (k < next)%Z -> outside (List.concat groups) k = true ->
  Sim.get k (fst (Sim.handleCollisions M groups l next)) = Sim.get k l.
Proof.
  revert l next. induction groups as [|coll groups IH]; intros l next Hlt Hout.
  - reflexivity.
  - simpl in Hout. rewrite outside_app in Hout.
    apply andb_true_iff in Hout. destruct Hout as [Hc Hg].
    cbn [Sim.handleCollisions Sim.newMassiveBody Sim.id].
    rewrite IH by (try lia; exact Hg).
    rewrite get_set_other by lia. now apply get_deleteAll_outside.
Qed.

Lemma new_ids_shift next n :
  next :: map (fun i => (next + 1 + Z.of_nat i)%Z) (seq 0 n)
    = map (fun i => (next + Z.of_nat i)%Z) (seq 0 (S n)).
Proof.
  cbn [seq map]. f_equal; [f_equal; lia|].
  rewrite <- seq_shift, map_map. apply map_ext. intros i. lia.
Qed.

Lemma handleCollisions_keys M groups l next :
  (forall k, In k (Sim.keys l) -> (k < next)%Z) ->
  (forall b, In b (List.concat groups) -> (Sim.id b < next)%Z) ->
  Sim.keys (fst (Sim.handleCollisions M groups l next))
    = filter (outside (List.concat groups)) (Sim.keys l)
      ++ map (fun i => (next + Z.of_nat i)%Z) (seq 0 (List.length groups)).
Proof.
  revert l next. induction groups as [|coll groups IH]; intros l next Hlive Hmem.
  - simpl. rewrite app_nil_r. symmetry. now apply filter_all.
  - cbn [Sim.handleCollisions Sim.newMassiveBody Sim.id].
    assert (Hfresh : ~ In next (Sim.keys (Sim.deleteAll coll l))).
    { rewrite keys_deleteAll, filter_In. intros [Hin _]. apply Hlive in Hin. lia. }
    rewrite IH.
    + rewrite (keys_set_fresh _ _ _ Hfresh), keys_deleteAll, filter_app, filter_twice.
      cbn [filter List.concat List.length].
      assert (Hnext : outside (List.concat groups) next = true).
      { apply outside_true. intros b Hin.
        assert (Sim.id b < next)%Z by (apply Hmem; simpl; apply in_or_app; now right).
        lia. }
      rewrite Hnext, <- app_assoc. cbn [app]. rewrite new_ids_shift.
      f_equal. apply filter_ext. intros k. now rewrite outside_app.
    + intros k Hin. rewrite (keys_set_fresh _ _ _ Hfresh) in Hin.
      apply in_app_or in Hin. destruct Hin as [Hin | [<- | []]]; [|lia].
      rewrite keys_deleteAll, filter_In in Hin. destruct Hin as [Hin _].
      apply Hlive in Hin. lia.
    + intros b Hin.
      assert (Sim.id b < next)%Z by (apply Hmem; simpl; apply in_or_app; now right).
      lia.
Qed.

(** The body made for the group at position [i] is found under its id. *)
Lemma handleCollisions_get_new M groups l next i coll :
  (forall b, In b (List.concat groups) -> (Sim.id b < next)%Z) ->
  nth_error groups i = Some coll ->
  Sim.get (next + Z.of_nat i) (fst (Sim.handleCollisions M groups l next))
    = Some (Sim.mergeProduct M (next + Z.of_nat i) coll).
Proof.
  revert l next i. induction groups as [|c groups IH]; intros l next i Hmem Hnth.
  - destruct i; discriminate.
  - cbn [Sim.handleCollisions Sim.newMassiveBody Sim.id].
    assert (Hrest : forall b, In b (List.concat groups) -> (Sim.id b < next)%Z).
    { intros b Hin. apply Hmem. simpl. apply in_or_app. now right. }
    destruct i as [|i]; simpl in Hnth.
    + injection Hnth as ->. rewrite Z.add_0_r.
      rewrite handleCollisions_get_outside.
      * now rewrite get_set_same.
      * lia.
      * apply outside_true. intros b Hin. apply Hrest in Hin. lia.
    + replace (next + Z.of_nat (S i))%Z with (next + 1 + Z.of_nat i)%Z by lia.
      apply IH; [|exact Hnth].
      intros b Hin. apply Hrest in Hin. lia.
Qed.

End MergeFacts.

(** C6: when every live id and every member id is below the id counter (ids
    are handed out by the counter), then after [handleCollisions] no member
    of any group is live, the body made for the group at position [i] is live
    under the id [nextId + i], which is the id of none of the members, and
    the live ids are the former ones without the members, followed by one new
    id for each group. *)
Theorem merge_removes_members_and_adds_one
  {num : Type} `{Number num} (M : Sim.BodyModel num)
  (groups : list (list (Sim.MassiveBody num))) (live : Sim.BodyList num) (nextId : Z) :
  (forall k, In k (Sim.keys live) -> (k < nextId)%Z) ->
  (forall coll b, In coll groups -> In b coll -> (Sim.id b < nextId)%Z) ->
  let live' := fst (Sim.handleCollisions M groups live nextId) in
  (forall coll b, In coll groups -> In b coll -> Sim.get (Sim.id b) live' = None)
  /\ (forall i coll, nth_error groups i = Some coll ->
        let newBody := Sim.mergeProduct M (nextId + Z.of_nat i) coll in
        Sim.get (Sim.id newBody) live' = Some newBody
        /\ Sim.id newBody = (nextId + Z.of_nat i)%Z
        /\ forall g b, In g groups -> In b g -> Sim.id b <> Sim.id newBody)
  /\ Sim.keys live'
       = filter (outside (List.concat groups)) (Sim.keys live)
         ++ map (fun i => (nextId + Z.of_nat i)%Z) (seq 0 (List.length groups)).
Proof.
  intros Hlive Hmem live'.
  assert (Hall : forall b, In b (List.concat groups) -> (Sim.id b < nextId)%Z).
  { intros b Hin. apply in_concat in Hin. destruct Hin as [coll [Hc Hb]].
    now apply (Hmem coll). }
  assert (Hkeys := handleCollisions_keys M groups live nextId Hlive Hall).
  fold live' in Hkeys.
  split; [|split; [|exact Hkeys]].
  - intros coll b Hc Hb. apply get_None_iff. rewrite Hkeys. intros Hin.
    apply in_app_or in Hin. destruct Hin as [Hin | Hin].
    + apply filter_In in Hin. destruct Hin as [_ Hout].
      apply (proj1 (outside_true _ _)) with (b := b) in Hout; [now apply Hout|].
      apply in_concat. now exists coll.
    + apply in_map_iff in Hin. destruct Hin as [i [Hi _]].
      specialize (Hmem coll b Hc Hb). lia.
  - intros i coll Hnth newBody.
    split; [|split].
    + apply (handleCollisions_get_new M groups live nextId i coll Hall Hnth).
    + reflexivity.
    + intros g b Hg Hb. specialize (Hmem g b Hg Hb). cbn. lia.
Qed.

Lemma merge_removes_members_and_adds_one_witness :
  let live' := fst (Sim.handleCollisions Pile.model [Merge.group] Pile.three 4) in
  Sim.get 1 live' = None
  /\ Sim.get 2 live' = None
  /\ Sim.get 4 live' = Some (Sim.mergeProduct Pile.model 4 Merge.group)
  /\ Sim.keys live' = [3; 4]%Z.
Proof.
  assert (Hlive : forall k, In k (Sim.keys Pile.three) -> (k < 4)%Z).
  { intros k Hin. simpl in Hin. intuition lia. }
  assert (Hmem : forall coll b, In coll [Merge.group] -> In b coll -> (Sim.id b < 4)%Z).
  { intros coll b [<- | []] [<- | [<- | []]]; vm_compute; reflexivity. }
  destruct (merge_removes_members_and_adds_one Pile.model [Merge.group] Pile.three 4
              Hlive Hmem) as (Hgone & Hnew & Hkeys).
  intros live'. split; [|split; [|split]].
  - apply (Hgone Merge.group (Pile.body 1 0 10)); simpl; tauto.
  - apply (Hgone Merge.group (Pile.body 2 1 20)); simpl; tauto.
  - apply (Hnew 0%nat Merge.group eq_refl).
  - exact Hkeys.
Defined.

(** ** Exact arithmetic: the pair's two increments *)

Section Exact.
Local Open Scope R_scope.

Lemma two_components (v : list R) :
  List.length v = 2%nat -> exists x y, v = [x; y].
Proof.
  destruct v as [|x [|y [|z v]]]; try discriminate. intros _. now exists x, y.
Qed.




End Exact.








(** ** Exact arithmetic: sums over a group *)

Section Sums.
Local Open Scope R_scope.
Implicit Types (v w : list R) (b : Sim.MassiveBody R) (coll : list (Sim.MassiveBody R)).

Lemma vadd_assoc v w u : NVec.add (NVec.add v w) u = NVec.add v (NVec.add w u).
Proof.
  unfold NVec.add. revert w u.
  induction v as [|x v IH]; intros [|y w] [|z u]; simpl; try reflexivity.
  f_equal; [apply Rplus_assoc | apply IH].
Qed.

Lemma vadd_zero_r v : List.length v = 2%nat -> NVec.add v [0; 0] = v.
Proof.
  intros Hv. destruct (two_components _ Hv) as (x & y & ->).
  cbn. now rewrite !Rplus_0_r.
Qed.

Lemma vadd_zero_l v : List.length v = 2%nat -> NVec.add [0; 0] v = v.
Proof.
  intros Hv. destruct (two_components _ Hv) as (x & y & ->).
  cbn. now rewrite !Rplus_0_l.
Qed.

Lemma vadd_length v w :
  List.length v = 2%nat -> List.length w = 2%nat -> List.length (NVec.add v w) = 2%nat.
Proof.
  intros Hv Hw. destruct (two_components _ Hv) as (x & y & ->).
  destruct (two_components _ Hw) as (x' & y' & ->). reflexivity.
Qed.

Lemma vmul_length v (s : R) : List.length (NVec.mul v s) = List.length v.
Proof. apply length_map. Qed.

Lemma weighted_sum_length f coll :
  (forall b, In b coll -> List.length (f b) = 2%nat) ->
  List.length (weighted_sum f coll) = 2%nat.
Proof.
  induction coll as [|b coll IH]; intros Hf; [reflexivity|].
  unfold weighted_sum. simpl. apply vadd_length.
  - rewrite vmul_length. apply Hf. now left.
  - apply IH. intros b' Hin. apply Hf. now right.
Qed.

(** The loop of [reduce] and of [centerOfMass] for the mass ... *)
Lemma fold_mass coll (a : R) :
  fold_left (fun mass b => (mass + Sim.m b)%num) coll a = a + mass_sum coll.
Proof.
  revert a. induction coll as [|b coll IH]; intros a; simpl.
  - unfold mass_sum. simpl. ring.
  - rewrite IH. unfold mass_sum. simpl. ring.
Qed.

(** ... and for the moment. *)
Lemma fold_moment f coll v :
  List.length v = 2%nat ->
  (forall b, In b coll -> List.length (f b) = 2%nat) ->
  fold_left (fun moment b => NVec.add moment (NVec.mul (f b) (Sim.m b))) coll v
    = NVec.add v (weighted_sum f coll).
Proof.
  revert v. induction coll as [|b coll IH]; intros v Hv Hf; simpl.
  - symmetry. now apply vadd_zero_r.
  - rewrite IH.
    + unfold weighted_sum. simpl. apply vadd_assoc.
    + apply vadd_length; [exact Hv|]. rewrite vmul_length. apply Hf. now left.
    + intros b' Hin. apply Hf. now right.
Qed.

Lemma centerOfMass_mean coll :
  (2 <= List.length coll)%nat ->
  (forall b, In b coll -> List.length (Sim.pos b) = 2%nat) ->
  Sim.centerOfMass coll = NVec.div (weighted_sum Sim.pos coll) (mass_sum coll).
Proof.
  intros Hlen Hf.
  destruct coll as [|b1 [|b2 bs]]; [simpl in Hlen; lia | simpl in Hlen; lia |].
  unfold Sim.centerOfMass. cbv zeta.
  rewrite (fold_mass (b2 :: bs)).
  rewrite (fold_moment Sim.pos (b2 :: bs)).
  - reflexivity.
  - rewrite vmul_length. apply Hf. now left.
  - intros b Hin. apply Hf. now right.
Qed.

End Sums.

(** ** The merge product of a group that lists a body twice *)

(** [centerOfMass] always completes: the stand-in of [returned] in
    [mergeArgs] is never used. *)
Lemma centerOfMass_completes {num : Type} `{Number num}
  (group : list (Sim.MassiveBody num)) :
  Sim.centerOfMass group
    = Normal (written (Sim.centerOfMass group))
             (returned (Sim.centerOfMass group) Sim.zeroVector).
Proof. destruct group as [|b1 [|b2 bs]]; reflexivity. Qed.

(** C2 fails on the code, by the defect of C3.  Three bodies of mass 10, 20
    and 30 that all touch are gathered into the one group 1, 2, 3, 3, and
    [reduce] of line 194 adds the mass of every entry: the mass handed to the
    constructor is 90 where the members weigh 60.  Whatever [MAX_MASS] is, the
    body left in the world has that mass 90, cut off at [MAX_MASS]. *)
Theorem merge_counts_a_repeated_body_twice :
  groupIds (Sim.forcePass Pile.three []) = [[1; 2; 3; 3]]%Z
  /\ map (fun kb => Sim.m (snd kb)) Pile.three = [10; 20; 30]%float
  /\ (10 + 20 + 30 = 60)%float
  /\ map (fun coll => Sim.arg_m (Sim.mergeArgs coll))
         (Sim.collisions (Sim.forcePass Pile.three [])) = [90%float]
  /\ (forall M : Sim.BodyModel float,
        masses (Sim.updateAcceleration2 M Start.world)
          = [(4%Z, Sim.clamp_mass M 90%float)])
  /\ masses (Sim.updateAcceleration2 Pile.model Start.world) = [(4%Z, 90%float)]
  /\ (60 <? 90)%float = true.
Proof.
  split; [vm_compute; reflexivity|].
  split; [vm_compute; reflexivity|].
  split; [vm_compute; reflexivity|].
  split; [vm_compute; reflexivity|].
  split; [intros M; vm_compute; reflexivity|].
  split; vm_compute; reflexivity.
Qed.

(** A group whose masses add up to zero: [centerOfMass] divides by zero,
    the line "Div by 0" reaches the console of the world and the body left
    stands at (NaN, NaN). *)
Example merge_of_weightless_pair_logs :
  let w := Sim.mkWorld [(1%Z, Pile.body 1 0 0); (2%Z, Pile.body 2 1 0)]%float 3 [] in
  Sim.w_console (Sim.updateAcceleration2 Pile.model w) = ["Div by 0"%string]
  /\ map (fun kb => Sim.pos (snd kb)) (Sim.w_bodies (Sim.updateAcceleration2 Pile.model w))
       = [[nan; nan]].
Proof. split; vm_compute; reflexivity. Qed.

(** C7 fails on the code, by the defect of C3.  The same three bodies, none
    static, stand at (0, 0), (1, 0) and (2, 0); their mass-weighted centroid
    is at [(0 * 10 + 1 * 20 + 2 * 30) / (10 + 20 + 30)], that is 80 / 60, on
    the x axis.  [centerOfMass] gets the group 1, 2, 3, 3 and weighs body 3
    twice: it returns 140 / 90, and that is where the body left in the world
    stands. *)
Theorem merge_places_product_off_the_centroid :
  groupIds (Sim.forcePass Pile.three []) = [[1; 2; 3; 3]]%Z
  /\ map (fun kb => (Sim.pos (snd kb), Sim.m (snd kb), Sim.isStatic (snd kb))) Pile.three
       = [([0; 0], 10, false); ([1; 0], 20, false); ([2; 0], 30, false)]%float
  /\ map Sim.centerOfMass (Sim.collisions (Sim.forcePass Pile.three []))
       = [Normal [] [140 / 90; 0]%float]
  /\ map (fun kb => Sim.pos (snd kb))
         (Sim.w_bodies (Sim.updateAcceleration2 Pile.model Start.world))
       = [[140 / 90; 0]%float]
  /\ ((0 * 10 + 1 * 20 + 2 * 30) / (10 + 20 + 30) = 80 / 60)%float
  /\ (80 / 60 <? 140 / 90)%float = true.
Proof.
  split; [vm_compute; reflexivity|].
  split; [vm_compute; reflexivity|].
  split; [vm_compute; reflexivity|].
  split; [vm_compute; reflexivity|].
  split; vm_compute; reflexivity.
Qed.

(** * Further properties of the vector algebra *)

(** ** [dot] and [magnitudeSquared] *)

Section DotFacts.
Context {num : Type} `{Number num}.
Local Open Scope num_scope.

Lemma dot_from_own_tail (pre l : NVec.Vec num) (acc : num) :
  NVec.dot_from (List.length pre) acc l (pre ++ l)
    = fold_left (fun a val => a + val * val) l acc.
Proof.
  revert pre acc. induction l as [|c l IH]; intros pre acc; [reflexivity|].
  cbn [NVec.dot_from fold_left]. rewrite nth_middle.
  replace (pre ++ c :: l) with ((pre ++ [c]) ++ l) by (now rewrite <- app_assoc).
  replace (S (List.length pre)) with (List.length (pre ++ [c]))
    by (rewrite length_app; simpl; lia).
  apply IH.
Qed.

(** X1: in every arithmetic, doubles included, the dot product of a vector
    with itself is its squared magnitude. *)
Theorem dot_self_is_magnitudeSquared (v : NVec.Vec num) :
  NVec.dot v v = NVec.magnitudeSquared v.
Proof. exact (dot_from_own_tail [] v (lit 0)). Qed.

End DotFacts.

(** ** Exact arithmetic *)

Section VectorLaws.
Local Open Scope R_scope.
Implicit Types (v w l r : list R) (s : R).

Lemma fold_squares v (a : R) :
  fold_left (fun acc val => (acc + val * val)%num) v a = a + sumsq v.
Proof.
  revert a. induction v as [|c v IH]; intros a; simpl; [ring|].
  rewrite IH. cbn. ring.
Qed.

Lemma magnitudeSquared_sumsq v : NVec.magnitudeSquared v = sumsq v.
Proof. unfold NVec.magnitudeSquared. rewrite fold_squares. cbn. ring. Qed.

Lemma sumsq_nonneg v : 0 <= sumsq v.
Proof.
  induction v as [|c v IH]; simpl; [lra|]. pose proof (Rle_0_sqr c) as Hc.
  unfold Rsqr in Hc. lra.
Qed.

Lemma sumsq_scaled v s : sumsq (map (fun c => c * s) v) = s * s * sumsq v.
Proof. induction v as [|c v IH]; simpl; [ring | rewrite IH; ring]. Qed.

Lemma sumsq_zero_iff v : sumsq v = 0 <-> Forall (fun c => c = 0) v.
Proof.
  induction v as [|c v IH]; simpl.
  - split; [constructor | reflexivity].
  - pose proof (sumsq_nonneg v) as Hv. pose proof (Rle_0_sqr c) as Hc.
    unfold Rsqr in Hc. split.
    + intros Hsum. assert (Hcc : c * c = 0) by lra. constructor.
      * now apply Rsqr_0_uniq.
      * apply IH. lra.
    + intros Hall. inversion Hall as [|? ? Hc0 Hrest]; subst.
      apply IH in Hrest. rewrite Hrest. ring.
Qed.

Lemma dot_from_sumprod (pre l r : list R) (acc : R) :
  (List.length l <= List.length r)%nat ->
  NVec.dot_from (List.length pre) acc l (pre ++ r) = acc + sumprod l r.
Proof.
  revert pre r acc. induction l as [|c l IH]; intros pre r acc Hlen.
  - unfold sumprod. simpl. ring.
  - destruct r as [|d r]; [simpl in Hlen; lia|].
    cbn [NVec.dot_from]. rewrite nth_middle.
    replace (pre ++ d :: r) with ((pre ++ [d]) ++ r) by (now rewrite <- app_assoc).
    replace (S (List.length pre)) with (List.length (pre ++ [d]))
      by (rewrite length_app; simpl; lia).
    rewrite IH by (simpl in Hlen; lia). unfold sumprod. cbn. ring.
Qed.

Lemma dot_sumprod l r :
  (List.length l <= List.length r)%nat -> NVec.dot l r = sumprod l r.
Proof.
  intros Hlen. unfold NVec.dot.
  rewrite (dot_from_sumprod [] l r (lit 0) Hlen). cbn. ring.
Qed.

Lemma sumprod_comm l r : sumprod l r = sumprod r l.
Proof.
  unfold sumprod. revert r. induction l as [|c l IH]; intros [|d r]; simpl; try reflexivity.
  rewrite IH. ring.
Qed.

(** X2: for two vectors of the same dimension the dot product does not
    depend on the order of the operands. *)
Theorem dot_symmetric l r :
  List.length l = List.length r -> NVec.dot l r = NVec.dot r l.
Proof.
  intros Hlen. rewrite !dot_sumprod by lia. apply sumprod_comm.
Qed.

Lemma dot_symmetric_witness :
  NVec.dot [1; 2; 3] [4; 5; 6] = NVec.dot [4; 5; 6] [1; 2; 3].
Proof. apply dot_symmetric. reflexivity. Defined.

(** X3: the unit vector of a vector with a component that is not zero has
    magnitude 1, and has as many components as the vector. *)
Theorem unit_has_magnitude_one v :
  (exists c, In c v /\ c <> 0) ->
  NVec.magnitude (NVec.unit v) = 1
  /\ List.length (NVec.unit v) = List.length v.
Proof.
  intros (c & Hin & Hc). split; [|apply length_map].
  assert (Hpos : 0 < sumsq v).
  { destruct (Rle_lt_or_eq_dec _ _ (sumsq_nonneg v)) as [Hlt | Heq]; [exact Hlt|].
    symmetry in Heq. apply sumsq_zero_iff in Heq.
    rewrite Forall_forall in Heq. now apply Heq in Hin. }
  unfold NVec.unit, NVec.magnitude. cbn [nsqrt ndiv real_number].
  rewrite !magnitudeSquared_sumsq.
  assert (Hs : 0 < sqrt (sumsq v)) by now apply sqrt_lt_R0.
  replace (map (fun val => val / sqrt (sumsq v)) v)
    with (map (fun val => val * / sqrt (sumsq v)) v) by reflexivity.
  rewrite sumsq_scaled.
  replace (/ sqrt (sumsq v) * / sqrt (sumsq v) * sumsq v) with 1.
  - apply sqrt_1.
  - rewrite <- (sqrt_sqrt (sumsq v)) at 3 by lra. field. lra.
Qed.

Lemma unit_has_magnitude_one_witness :
  NVec.magnitude (NVec.unit [3; 4]) = 1
  /\ List.length (NVec.unit [3; 4]) = List.length [3; 4].
Proof.
  apply unit_has_magnitude_one. exists 3. split; [simpl; tauto | lra].
Defined.

(** X4: scaling a vector scales its magnitude by the absolute value of the
    scalar. *)
Theorem magnitude_of_scaled v s :
  NVec.magnitude (NVec.mul v s) = Rabs s * NVec.magnitude v.
Proof.
  unfold NVec.magnitude, NVec.mul. cbn [nsqrt nmul real_number].
  rewrite !magnitudeSquared_sumsq, sumsq_scaled.
  rewrite sqrt_mult by (try apply sumsq_nonneg; apply Rle_0_sqr).
  f_equal. apply sqrt_Rsqr_abs.
Qed.

(** X5: the magnitude is never negative, and it is zero exactly for the
    vectors whose components are all zero. *)
Theorem magnitude_zero_iff v :
  0 <= NVec.magnitude v
  /\ (NVec.magnitude v = 0 <-> Forall (fun c => c = 0) v).
Proof.
  unfold NVec.magnitude. cbn [nsqrt real_number]. rewrite magnitudeSquared_sumsq.
  split; [apply sqrt_pos|]. rewrite <- sumsq_zero_iff. split.
  - intros Hs. apply sqrt_eq_0; [apply sumsq_nonneg | exact Hs].
  - intros ->. apply sqrt_0.
Qed.

End VectorLaws.

Section VectorRoundTrips.
Local Open Scope R_scope.
Implicit Types (v w l r : list R) (s : R).

(** X6: for vectors of the same dimension, subtracting a vector and adding it
    back gives the vector one started from. *)
Theorem sub_then_add_cancels l r :
  List.length l = List.length r -> NVec.add (NVec.sub l r) r = l.
Proof.
  unfold NVec.add, NVec.sub. revert r.
  induction l as [|a l IH]; intros [|b r] Hlen; simpl in *; try discriminate.
  - reflexivity.
  - f_equal; [ring | apply IH; lia].
Qed.

Lemma sub_then_add_cancels_witness :
  NVec.add (NVec.sub [5; 7] [2; 3]) [2; 3] = [5; 7].
Proof. apply sub_then_add_cancels. reflexivity. Defined.

(** X7: the midpoint of two vectors of the same dimension is as far from the
    one as from the other, component by component, and does not depend on
    their order. *)
Theorem midpoint_is_halfway l r :
  List.length l = List.length r ->
  NVec.sub (NVec.midpoint l r) l = NVec.sub r (NVec.midpoint l r)
  /\ NVec.midpoint l r = NVec.midpoint r l.
Proof.
  unfold NVec.sub, NVec.midpoint. revert r.
  induction l as [|a l IH]; intros [|b r] Hlen; simpl in *; try discriminate.
  - split; reflexivity.
  - destruct (IH r) as [Hhalf Hsym]; [lia|]. split.
    + f_equal; [field | exact Hhalf].
    + f_equal; [field | exact Hsym].
Qed.

Lemma midpoint_is_halfway_witness :
  NVec.sub (NVec.midpoint [0; 4] [2; 0]) [0; 4]
    = NVec.sub [2; 0] (NVec.midpoint [0; 4] [2; 0])
  /\ NVec.midpoint [0; 4] [2; 0] = NVec.midpoint [2; 0] [0; 4].
Proof. apply midpoint_is_halfway. reflexivity. Defined.

(** X8: the zero vector that a vector's [zero] getter returns is neutral for
    [add], on either side, and has magnitude 0. *)
Theorem zero_of_is_neutral v :
  NVec.add v (NVec.zero_of v) = v
  /\ NVec.add (NVec.zero_of v) v = v
  /\ NVec.magnitude (NVec.zero_of v) = 0.
Proof.
  unfold NVec.zero_of, NVec.zero, NVec.add. split; [|split].
  - induction v as [|c v IH]; simpl; [reflexivity|]. f_equal; [ring | exact IH].
  - induction v as [|c v IH]; simpl; [reflexivity|]. f_equal; [ring | exact IH].
  - unfold NVec.magnitude. cbn [nsqrt lit real_number].
    rewrite magnitudeSquared_sumsq.
    replace (sumsq (repeat 0 (List.length v))) with 0; [apply sqrt_0|].
    symmetry. apply sumsq_zero_iff.
    induction v as [|c v IH]; simpl; constructor; [reflexivity | exact IH].
Qed.

(** X9: dividing by a scalar that is not zero writes nothing to the console,
    and multiplying the quotient by the scalar gives the vector back. *)
Theorem div_then_mul_cancels v s :
  s <> 0 ->
  exists q, NVec.div v s = Normal [] q /\ NVec.mul q s = v.
Proof.
  intros Hs. exists (NVec.div_value v s). split.
  - unfold NVec.div, NVec.div_console. cbn [neqb lit real_number]. unfold Reqb.
    destruct (Req_dec_T s 0); [contradiction | reflexivity].
  - unfold NVec.mul, NVec.div_value. rewrite map_map.
    rewrite <- (map_id v) at 2. apply map_ext. intros c. cbn. now field.
Qed.

Lemma div_then_mul_cancels_witness :
  exists q, NVec.div [6; 9] 3 = Normal [] q /\ NVec.mul q 3 = [6; 9].
Proof. apply div_then_mul_cancels. lra. Defined.

End VectorRoundTrips.

(** ** [getItem] *)

(** X10: in every arithmetic, [getItem] is [undefined] exactly for the
    indices below 0 and from the length on, and a component of [mul] is the
    component of the operand at the same index times the scalar. *)
Theorem getItem_in_bounds {num : Type} `{Number num}
  (v : NVec.Vec num) (s : num) (index : Z) :
  (NVec.getItem v index = None
   <-> (index < 0 \/ Z.of_nat (List.length v) <= index)%Z)
  /\ NVec.getItem (NVec.mul v s) index
       = option_map (fun c => (c * s)%num) (NVec.getItem v index).
Proof.
  unfold NVec.getItem, NVec.mul.
  destruct (Z.ltb_spec index 0) as [Hneg | Hpos].
  - split; [|reflexivity]. split; [intros _; now left | reflexivity].
  - split; [|apply nth_error_map]. rewrite nth_error_None. lia.
Qed.

(** * Further properties of [Vec2] *)

(** X11: in exact arithmetic, the squares of the cross product and of the dot
    product of two vectors add up to the product of their squared
    magnitudes; so the cross product of a vector with itself is 0 and the
    dot product with itself is the squared magnitude. *)
Theorem Vec2_cross_and_dot (a b : Vec2.t R) :
  (Vec2.cross a b * Vec2.cross a b + Vec2.dot a b * Vec2.dot a b
   = Vec2.magnitudeSquared a * Vec2.magnitudeSquared b)%R
  /\ Vec2.cross a b = (- Vec2.cross b a)%R
  /\ Vec2.cross a a = 0%R.
Proof.
  destruct a as [ax ay], b as [bx b_y].
  unfold Vec2.cross, Vec2.dot, Vec2.magnitudeSquared. cbn.
  repeat split; ring.
Qed.

(** * Further properties of the simulation *)

Section PassFacts.
Context {num : Type} `{Number num}.
Implicit Types (k : Z) (b : Sim.MassiveBody num) (st : Sim.Pass num)
  (cs : list (list (Sim.MassiveBody num))).

Lemma holds_either c b1 b2 :
  existsb (fun b => Sim.eq b b1 || Sim.eq b b2) c
    = Sim.includes c b1 || Sim.includes c b2.
Proof. unfold Sim.includes, Sim.eq. apply existsb_either. Qed.

(** X12: [getCollisionWith] finds nothing exactly when no group holds either
    body; what it finds is the position of the first group that holds one of
    them. *)
Theorem getCollisionWith_first cs b1 b2 :
  (Sim.getCollisionWith cs b1 b2 = None
   <-> forall c, In c cs -> Sim.includes c b1 = false /\ Sim.includes c b2 = false)
  /\ (forall i, Sim.getCollisionWith cs b1 b2 = Some i ->
        (i < List.length cs)%nat
        /\ Sim.includes (nth i cs []) b1 || Sim.includes (nth i cs []) b2 = true
        /\ forall j, (j < i)%nat ->
             Sim.includes (nth j cs []) b1 = false
             /\ Sim.includes (nth j cs []) b2 = false).
Proof.
  induction cs as [|c cs [IHnone IHsome]]; simpl.
  - split; [split; [intros _ c [] | reflexivity] | discriminate].
  - rewrite holds_either.
    destruct (Sim.includes c b1 || Sim.includes c b2) eqn:Hc.
    + split.
      * split; [discriminate|]. intros Hall.
        destruct (Hall c (or_introl Logic.eq_refl)) as [H1 H2].
        rewrite H1, H2 in Hc. discriminate.
      * intros i [= <-]. split; [lia|]. split; [exact Hc|]. intros j Hj. lia.
    + apply orb_false_iff in Hc.
      destruct (Sim.getCollisionWith cs b1 b2) as [i0|] eqn:Hrest; simpl.
      * split.
        { split; [discriminate|]. intros Hall.
          assert (Habs : Some i0 = None)
            by (apply IHnone; intros c' Hin; apply Hall; now right).
          discriminate Habs. }
        intros i [= <-]. destruct (IHsome i0 Logic.eq_refl) as (Hlt & Hin & Hbefore).
        split; [lia|]. split; [exact Hin|].
        intros [|j] Hj; [exact Hc | apply Hbefore; lia].
      * split; [|discriminate]. split; [|reflexivity].
        intros _ c' [<- | Hin]; [exact Hc|].
        now apply (proj1 IHnone Logic.eq_refl).
Qed.

End PassFacts.

Section PassInvariants.
Context {num : Type} `{Number num}.
Implicit Types (k : Z) (b : Sim.MassiveBody num) (st : Sim.Pass num)
  (live : Sim.BodyList num).

Lemma get_set_idem k k' b live :
  Sim.get k live = Some b -> Sim.get k' (Sim.set k b live) = Sim.get k' live.
Proof.
  intros Hget. destruct (Z.eq_dec k' k) as [->|Hne].
  - now rewrite get_set_same.
  - now apply get_set_other.
Qed.

Lemma attract1_static b1 b2 : Sim.isStatic b1 = true -> Sim.attract1 b1 b2 = b1.
Proof. intros Hs. unfold Sim.attract1. now rewrite Hs. Qed.

Lemma attract2_static b1 b2 : Sim.isStatic b2 = true -> Sim.attract2 b1 b2 = b2.
Proof. intros Hs. unfold Sim.attract2. now rewrite Hs. Qed.

Lemma evalPair_static k k2 st k' b :
  Sim.get k' (Sim.bodies st) = Some b -> Sim.isStatic b = true ->
  Sim.get k' (Sim.bodies (Sim.evalPair k k2 st)) = Some b.
Proof.
  intros Hget Hs. unfold Sim.evalPair.
  destruct (Sim.get k2 (Sim.bodies st)) as [b2|] eqn:H2; [|exact Hget].
  destruct (Sim.get k (Sim.bodies st)) as [b1|] eqn:H1; [|exact Hget].
  destruct (Sim.colliding b1 b2); [now rewrite collide_bodies|].
  unfold Sim.attract. cbn [Sim.bodies].
  destruct (Z.eq_dec k' k2) as [->|Hne2].
  - rewrite get_set_same. assert (b2 = b) by congruence. subst b2.
    now rewrite attract2_static.
  - rewrite get_set_other by exact Hne2.
    destruct (Z.eq_dec k' k) as [->|Hne].
    + rewrite get_set_same. assert (b1 = b) by congruence. subst b1.
      now rewrite attract1_static.
    + now rewrite get_set_other.
Qed.

Lemma outer_static bodyKeys st k' b :
  Sim.get k' (Sim.bodies st) = Some b -> Sim.isStatic b = true ->
  Sim.get k' (Sim.bodies (Sim.outer bodyKeys st)) = Some b.
Proof.
  revert st. induction bodyKeys as [|k later IH]; intros st Hget Hs; [exact Hget|].
  simpl. apply IH; [|exact Hs]. unfold Sim.inner. clear IH. revert st Hget.
  induction later as [|k2 later IH]; intros st Hget; [exact Hget|].
  simpl. apply IH. now apply evalPair_static.
Qed.

(** X13: the force pass adds and removes no body and keeps the order of the
    map; every body keeps its id, position, velocity, mass, radius and static
    flag; and a static body keeps its acceleration as well. *)
Theorem forcePass_changes_only_acc live (out : list string) :
  Sim.keys (Sim.bodies (Sim.forcePass live out)) = Sim.keys live
  /\ (forall k, option_map frozen (Sim.get k (Sim.bodies (Sim.forcePass live out)))
                = option_map frozen (Sim.get k live))
  /\ (forall k b, Sim.get k live = Some b -> Sim.isStatic b = true ->
        Sim.get k (Sim.bodies (Sim.forcePass live out)) = Some b).
Proof.
  split; [apply forcePass_keys|]. split; [intros k; apply forcePass_frozen|].
  intros k b Hget Hs. unfold Sim.forcePass. now apply outer_static.
Qed.

Lemma collide_console b1 b2 st :
  Sim.console (Sim.collide b1 b2 st) = Sim.console st.
Proof.
  unfold Sim.collide.
  destruct (Sim.getCollisionWith (Sim.collisions st) b1 b2) as [i|] eqn:Hfound;
    [|reflexivity].
  apply getCollisionWith_includes in Hfound.
  destruct (Sim.includes _ b1); [reflexivity|].
  destruct (Sim.includes _ b2); [reflexivity | discriminate].
Qed.

Lemma evalPair_console k k2 st :
  exists added,
    Sim.console (Sim.evalPair k k2 st) = Sim.console st ++ added
    /\ only_div_by_0 added.
Proof.
  unfold Sim.evalPair.
  destruct (Sim.get k2 (Sim.bodies st)) as [b2|];
    [|exists []; split; [now rewrite app_nil_r | constructor]].
  destruct (Sim.get k (Sim.bodies st)) as [b1|];
    [|exists []; split; [now rewrite app_nil_r | constructor]].
  destruct (Sim.colliding b1 b2).
  - exists []. rewrite collide_console, app_nil_r. split; [reflexivity | constructor].
  - eexists. split; [reflexivity|]. unfold NVec.div_console.
    destruct (neqb _ _); repeat constructor.
Qed.

Lemma outer_console bodyKeys st :
  exists added,
    Sim.console (Sim.outer bodyKeys st) = Sim.console st ++ added
    /\ only_div_by_0 added.
Proof.
  assert (Hinner : forall k later st0, exists added,
             Sim.console (Sim.inner k later st0) = Sim.console st0 ++ added
             /\ only_div_by_0 added).
  { intros k later. unfold Sim.inner.
    induction later as [|k2 later IH]; intros st0; simpl.
    - exists []. split; [now rewrite app_nil_r | constructor].
    - destruct (IH (Sim.evalPair k k2 st0)) as (a2 & Ha2 & Hq2).
      destruct (evalPair_console k k2 st0) as (a1 & Ha1 & Hq1).
      exists (a1 ++ a2). rewrite Ha2, Ha1, app_assoc.
      split; [reflexivity | now apply Forall_app]. }
  revert st. induction bodyKeys as [|k later IH]; intros st; simpl.
  - exists []. split; [now rewrite app_nil_r | constructor].
  - destruct (IH (Sim.inner k later st)) as (a2 & Ha2 & Hq2).
    destruct (Hinner k later st) as (a1 & Ha1 & Hq1).
    exists (a1 ++ a2). rewrite Ha2, Ha1, app_assoc.
    split; [reflexivity | now apply Forall_app].
Qed.

Lemma push_at_drawn live i b cs :
  drawn_from live b -> all_drawn_from live cs ->
  all_drawn_from live (Sim.push_at i b cs).
Proof.
  intros Hb. unfold all_drawn_from. revert i.
  induction cs as [|c cs IH]; intros i Hall; [destruct i; constructor|].
  inversion Hall as [|? ? Hc Hcs]; subst.
  destruct i as [|i]; simpl; constructor; auto.
  apply Forall_app. split; [exact Hc | repeat constructor; exact Hb].
Qed.

Lemma collide_drawn live b1 b2 st :
  drawn_from live b1 -> drawn_from live b2 ->
  all_drawn_from live (Sim.collisions st) ->
  all_drawn_from live (Sim.collisions (Sim.collide b1 b2 st)).
Proof.
  intros Hb1 Hb2 Hall. unfold Sim.collide.
  destruct (Sim.getCollisionWith (Sim.collisions st) b1 b2) as [i|].
  - destruct (Sim.includes _ b1); [now apply push_at_drawn|].
    destruct (Sim.includes _ b2); [now apply push_at_drawn | exact Hall].
  - cbn [Sim.collisions]. apply Forall_app. split; [exact Hall|].
    repeat constructor; assumption.
Qed.

Lemma tracked_body live st k b :
  tracks live st -> Sim.get k (Sim.bodies st) = Some b -> drawn_from live b.
Proof.
  intros [Hfr _] Hget. specialize (Hfr k). rewrite Hget in Hfr. cbn [option_map] in Hfr.
  destruct (Sim.get k live) as [b0|] eqn:Hlive; [|discriminate].
  cbn [option_map] in Hfr. exists k, b0. split; [exact Hlive | congruence].
Qed.

Lemma evalPair_tracks live k k2 st :
  tracks live st -> tracks live (Sim.evalPair k k2 st).
Proof.
  intros Htr. split.
  - intros k'. rewrite evalPair_frozen. apply Htr.
  - unfold Sim.evalPair.
    destruct (Sim.get k2 (Sim.bodies st)) as [b2|] eqn:H2; [|apply Htr].
    destruct (Sim.get k (Sim.bodies st)) as [b1|] eqn:H1; [|apply Htr].
    destruct (Sim.colliding b1 b2); [|apply Htr].
    apply collide_drawn; [eapply tracked_body; eassumption .. | apply Htr].
Qed.

Lemma outer_tracks live bodyKeys st :
  tracks live st -> tracks live (Sim.outer bodyKeys st).
Proof.
  revert st. induction bodyKeys as [|k later IH]; intros st Htr; [exact Htr|].
  simpl. apply IH. unfold Sim.inner. clear IH. revert st Htr.
  induction later as [|k2 later IH]; intros st Htr; [exact Htr|].
  simpl. apply IH. now apply evalPair_tracks.
Qed.

Lemma forcePass_tracks live (out : list string) :
  tracks live (Sim.forcePass live out).
Proof.
  apply outer_tracks. split; [reflexivity | constructor].
Qed.

(** X14: every collision group that the force pass builds has two entries or
    more, each entry is a body of the live map; and the pass writes nothing
    to the console but "Div by 0" lines: the branch that logs "wut" is never
    taken. *)
Theorem forcePass_groups_and_console live (out : list string) :
  pairs_or_more (Sim.collisions (Sim.forcePass live out))
  /\ Forall (Forall (drawn_from live)) (Sim.collisions (Sim.forcePass live out))
  /\ exists added,
       Sim.console (Sim.forcePass live out) = out ++ added
       /\ Forall (fun line => line = "Div by 0"%string) added.
Proof.
  split; [apply forcePass_pairs_or_more|].
  split; [apply forcePass_tracks|].
  apply (outer_console (Sim.keys live) (Sim.mkPass live [] [] out)).
Qed.

End PassInvariants.

(** ** The order of the pairs *)

Lemma in_pairsOf (bodyKeys : list Z) (k k2 : Z) :
  In (k, k2) (pairsOf bodyKeys) -> In k bodyKeys /\ In k2 bodyKeys.
Proof.
  induction bodyKeys as [|a later IH]; simpl; [tauto|].
  intros Hin. apply in_app_or in Hin. destruct Hin as [Hin | Hin].
  - apply in_map_iff in Hin. destruct Hin as (x & [= <- <-] & Hx). tauto.
  - apply IH in Hin. tauto.
Qed.

Lemma length_pairsOf (bodyKeys : list Z) :
  (2 * List.length (pairsOf bodyKeys)
   = List.length bodyKeys * (List.length bodyKeys - 1))%nat.
Proof.
  induction bodyKeys as [|a later IH]; [reflexivity|].
  cbn [pairsOf List.length]. rewrite length_app, length_map.
  destruct later as [|b later]; [reflexivity|].
  cbn [List.length] in *. nia.
Qed.

Lemma NoDup_map_pair (a : Z) (later : list Z) :
  NoDup later -> NoDup (map (pair a) later).
Proof.
  induction later as [|x later IH]; intros Hnd; [constructor|].
  inversion Hnd as [|? ? Hout Hlater]; subst. simpl. constructor; [|now apply IH].
  intros Hin. apply in_map_iff in Hin. destruct Hin as (y & [= ->] & Hy). contradiction.
Qed.

Lemma NoDup_pairsOf (bodyKeys : list Z) :
  NoDup bodyKeys -> NoDup (pairsOf bodyKeys).
Proof.
  induction bodyKeys as [|a later IH]; intros Hnd; [constructor|].
  inversion Hnd as [|? ? Hout Hlater]; subst. cbn [pairsOf].
  apply NoDup_app.
  - now apply NoDup_map_pair.
  - now apply IH.
  - intros [k k2] Hin1 Hin2. apply in_map_iff in Hin1.
    destruct Hin1 as (x & [= <- <-] & _). apply in_pairsOf in Hin2. tauto.
Qed.

Section PairOrder.
Context {num : Type} `{Number num}.

Lemma inner_evalPairs (k : Z) (later : list Z) (st : Sim.Pass num) :
  Sim.inner k later st = evalPairs (map (pair k) later) st.
Proof.
  unfold Sim.inner, evalPairs. revert st.
  induction later as [|k2 later IH]; intros st; simpl; [reflexivity | apply IH].
Qed.

Lemma outer_evalPairs (bodyKeys : list Z) (st : Sim.Pass num) :
  Sim.outer bodyKeys st = evalPairs (pairsOf bodyKeys) st.
Proof.
  revert st. induction bodyKeys as [|k later IH]; intros st; [reflexivity|].
  cbn [Sim.outer pairsOf]. unfold evalPairs. rewrite fold_left_app.
  fold (evalPairs (map (pair k) later) st). rewrite <- inner_evalPairs. apply IH.
Qed.

(** X15: the force pass evaluates the pairs of [pairsOf], one after the
    other: [n * (n - 1) / 2] of them for [n] bodies; no body is paired with
    itself, no pair is evaluated twice or in both orders, and every two live
    bodies are evaluated as a pair. *)
Theorem forcePass_evaluates_each_pair_once (live : Sim.BodyList num) (out : list string) :
  NoDup (Sim.keys live) ->
  let pairs := pairsOf (Sim.keys live) in
  Sim.forcePass live out = evalPairs pairs (Sim.mkPass live [] [] out)
  /\ (2 * List.length pairs
      = List.length live * (List.length live - 1))%nat
  /\ NoDup pairs
  /\ (forall k k2, In (k, k2) pairs -> k <> k2 /\ ~ In (k2, k) pairs)
  /\ (forall k k2, In k (Sim.keys live) -> In k2 (Sim.keys live) -> k <> k2 ->
        In (k, k2) pairs \/ In (k2, k) pairs).
Proof.
  intros Hnd pairs. subst pairs.
  split; [apply outer_evalPairs|].
  split; [rewrite length_pairsOf; unfold Sim.keys; now rewrite length_map|].
  split; [now apply NoDup_pairsOf|].
  generalize dependent (Sim.keys live). clear live. intros bodyKeys Hnd. split.
  - induction bodyKeys as [|a later IH]; intros k k2 Hin; [destruct Hin|].
    inversion Hnd as [|? ? Hout Hlater]; subst. cbn [pairsOf] in *.
    apply in_app_or in Hin. destruct Hin as [Hin | Hin].
    + apply in_map_iff in Hin. destruct Hin as (x & [= <- <-] & Hx).
      split; [intros ->; contradiction|].
      intros Hrev. apply in_app_or in Hrev. destruct Hrev as [Hrev | Hrev].
      * apply in_map_iff in Hrev. destruct Hrev as (y & [= -> <-] & Hy). contradiction.
      * apply in_pairsOf in Hrev. tauto.
    + destruct (IH Hlater k k2 Hin) as [Hne Hnot]. split; [exact Hne|].
      intros Hrev. apply in_app_or in Hrev. destruct Hrev as [Hrev | Hrev].
      * apply in_map_iff in Hrev. destruct Hrev as (y & [= <- <-] & Hy).
        apply in_pairsOf in Hin. tauto.
      * contradiction.
  - induction bodyKeys as [|a later IH]; intros k k2 Hk Hk2 Hne; [destruct Hk|].
    inversion Hnd as [|? ? Hout Hlater]; subst. cbn [pairsOf].
    destruct Hk as [<- | Hk], Hk2 as [<- | Hk2].
    + contradiction.
    + left. apply in_or_app. left. now apply in_map.
    + right. apply in_or_app. left. now apply in_map.
    + destruct (IH Hlater k k2 Hk Hk2 Hne) as [Hin | Hin];
        [left | right]; apply in_or_app; now right.
Qed.

(** X16: a world with no body or with one body has no pair: the step leaves
    its bodies, its id counter and its console as they are. *)
Theorem small_world_is_left_alone (M : Sim.BodyModel num) (w : Sim.World num) :
  (List.length (Sim.w_bodies w) <= 1)%nat ->
  Sim.updateAcceleration2 M w = w.
Proof.
  destruct w as [[|[k b] [|kb rest]] next out]; simpl; intros Hlen;
    [reflexivity | reflexivity | lia].
Qed.

End PairOrder.

Lemma forcePass_evaluates_each_pair_once_witness :
  let pairs := pairsOf (Sim.keys Pile.three) in
  Sim.forcePass Pile.three [] = evalPairs pairs (Sim.mkPass Pile.three [] [] [])
  /\ (2 * List.length pairs
      = List.length Pile.three * (List.length Pile.three - 1))%nat
  /\ NoDup pairs
  /\ (forall k k2, In (k, k2) pairs -> k <> k2 /\ ~ In (k2, k) pairs)
  /\ (forall k k2, In k (Sim.keys Pile.three) -> In k2 (Sim.keys Pile.three) ->
        k <> k2 -> In (k, k2) pairs \/ In (k2, k) pairs).
Proof.
  apply (forcePass_evaluates_each_pair_once Pile.three []).
  simpl. repeat constructor; simpl; intuition lia.
Defined.

Lemma small_world_is_left_alone_witness :
  Sim.updateAcceleration2 Pile.model (Sim.mkWorld [(1%Z, Pile.body 1 0 10)] 2 [])
    = Sim.mkWorld [(1%Z, Pile.body 1 0 10)] 2 [].
Proof.
  apply (small_world_is_left_alone Pile.model). simpl. lia.
Defined.

(** ** Exact arithmetic: the pass as a whole *)

Section NetForce.
Local Open Scope R_scope.
Implicit Types (k : Z) (b : Sim.MassiveBody R) (live : Sim.BodyList R)
  (st : Sim.Pass R).

Lemma net_set i k b b' live :
  Sim.get k live = Some b ->
  net i (Sim.set k b' live)
    = net i live - nth i (Sim.acc b) 0 * Sim.m b + nth i (Sim.acc b') 0 * Sim.m b'.
Proof.
  induction live as [|[k0 b0] live IH]; simpl; [discriminate|].
  destruct (Z.eqb k k0).
  - intros [= ->]. simpl. ring.
  - intros Hget. simpl. rewrite (IH Hget). ring.
Qed.

Lemma movable2_attract1 b1 b2 :
  movable2 b1 -> movable2 b2 -> movable2 (Sim.attract1 b1 b2).
Proof.
  destruct b1 as [i1 p1 v1 a1 m1 r1 s1], b2 as [i2 p2 v2 a2 m2 r2 s2].
  unfold movable2. cbn [Sim.isStatic Sim.pos Sim.acc].
  intros (Hp1 & Ha1 & ->) (Hp2 & Ha2 & ->).
  destruct (two_components _ Hp1) as (x1 & y1 & ->).
  destruct (two_components _ Hp2) as (x2 & y2 & ->).
  destruct (two_components _ Ha1) as (ax1 & ay1 & ->).
  repeat split.
Qed.

Lemma movable2_attract2 b1 b2 :
  movable2 b1 -> movable2 b2 -> movable2 (Sim.attract2 b1 b2).
Proof.
  destruct b1 as [i1 p1 v1 a1 m1 r1 s1], b2 as [i2 p2 v2 a2 m2 r2 s2].
  unfold movable2. cbn [Sim.isStatic Sim.pos Sim.acc].
  intros (Hp1 & Ha1 & ->) (Hp2 & Ha2 & ->).
  destruct (two_components _ Hp1) as (x1 & y1 & ->).
  destruct (two_components _ Hp2) as (x2 & y2 & ->).
  destruct (two_components _ Ha2) as (ax2 & ay2 & ->).
  repeat split.
Qed.

(** What the pair adds to the one body, times its mass, and to the other,
    times its mass, cancel in every component. *)
Lemma attract_cancels i b1 b2 :
  movable2 b1 -> movable2 b2 ->
  nth i (Sim.acc (Sim.attract1 b1 b2)) 0 * Sim.m (Sim.attract1 b1 b2)
  + nth i (Sim.acc (Sim.attract2 b1 b2)) 0 * Sim.m (Sim.attract2 b1 b2)
  = nth i (Sim.acc b1) 0 * Sim.m b1 + nth i (Sim.acc b2) 0 * Sim.m b2.
Proof.
  destruct b1 as [i1 p1 v1 a1 m1 r1 s1], b2 as [i2 p2 v2 a2 m2 r2 s2].
  unfold movable2. cbn [Sim.isStatic Sim.pos Sim.acc].
  intros (Hp1 & Ha1 & ->) (Hp2 & Ha2 & ->).
  destruct (two_components _ Hp1) as (x1 & y1 & ->).
  destruct (two_components _ Hp2) as (x2 & y2 & ->).
  destruct (two_components _ Ha1) as (ax1 & ay1 & ->).
  destruct (two_components _ Ha2) as (ax2 & ay2 & ->).
  unfold Sim.attract1, Sim.attract2, Sim.accFactor.
  cbn [Sim.isStatic Sim.acc Sim.m negb Sim.set_acc].
  set (d := (Sim.distanceSquared _ _ * Sim.distance _ _)%num).
  destruct i as [|[|[|i]]]; cbn; unfold Rdiv; ring.
Qed.

Lemma evalPair_net i k k2 st :
  k <> k2 -> all_movable2 (Sim.bodies st) ->
  net i (Sim.bodies (Sim.evalPair k k2 st)) = net i (Sim.bodies st)
  /\ all_movable2 (Sim.bodies (Sim.evalPair k k2 st)).
Proof.
  intros Hne Hall. unfold Sim.evalPair.
  destruct (Sim.get k2 (Sim.bodies st)) as [b2|] eqn:H2; [|now split].
  destruct (Sim.get k (Sim.bodies st)) as [b1|] eqn:H1; [|now split].
  destruct (Sim.colliding b1 b2); [rewrite collide_bodies; now split|].
  unfold Sim.attract. cbn [Sim.bodies].
  pose proof (Hall _ _ H1) as Hm1. pose proof (Hall _ _ H2) as Hm2.
  split.
  - rewrite (net_set i k2 b2).
    + rewrite (net_set i k b1 _ _ H1).
      pose proof (attract_cancels i b1 b2 Hm1 Hm2) as Hc. lra.
    + rewrite get_set_other by congruence. exact H2.
  - intros k' b Hget.
    destruct (Z.eq_dec k' k2) as [->|Hne2].
    + rewrite get_set_same in Hget. injection Hget as <-.
      now apply movable2_attract2.
    + rewrite get_set_other in Hget by exact Hne2.
      destruct (Z.eq_dec k' k) as [->|Hne1].
      * rewrite get_set_same in Hget. injection Hget as <-.
        now apply movable2_attract1.
      * rewrite get_set_other in Hget by exact Hne1. now apply (Hall k').
Qed.

Lemma inner_net i k later st :
  ~ In k later -> all_movable2 (Sim.bodies st) ->
  net i (Sim.bodies (Sim.inner k later st)) = net i (Sim.bodies st)
  /\ all_movable2 (Sim.bodies (Sim.inner k later st)).
Proof.
  unfold Sim.inner. revert st.
  induction later as [|k2 later IH]; intros st Hout Hall; [now split|].
  simpl. destruct (evalPair_net i k k2 st) as [Hnet Hall'];
    [intros ->; apply Hout; now left | exact Hall |].
  destruct (IH (Sim.evalPair k k2 st)) as [Hnet2 Hall2];
    [intros Hin; apply Hout; now right | exact Hall' |].
  split; [now rewrite Hnet2 | exact Hall2].
Qed.

Lemma outer_net i bodyKeys st :
  NoDup bodyKeys -> all_movable2 (Sim.bodies st) ->
  net i (Sim.bodies (Sim.outer bodyKeys st)) = net i (Sim.bodies st).
Proof.
  revert st. induction bodyKeys as [|k later IH]; intros st Hnd Hall; [reflexivity|].
  inversion Hnd as [|? ? Hout Hlater]; subst. simpl.
  destruct (inner_net i k later st Hout Hall) as [Hnet Hall'].
  now rewrite (IH _ Hlater Hall').
Qed.

(** X17: in a world of movable 2-dimensional bodies, the force pass leaves
    the sum of [mass * acc] over all bodies as it was: what the pairs add
    cancels out. *)
Theorem forcePass_adds_no_net_force live (out : list string) (i : nat) :
  NoDup (Sim.keys live) ->
  (forall k b, Sim.get k live = Some b -> movable2 b) ->
  net i (Sim.bodies (Sim.forcePass live out)) = net i live.
Proof.
  intros Hnd Hall. unfold Sim.forcePass. now rewrite outer_net.
Qed.

Lemma forcePass_adds_no_net_force_witness :
  net 0 (Sim.bodies (Sim.forcePass (Sim.bodies Orbit.st) [])) = net 0 (Sim.bodies Orbit.st).
Proof.
  apply forcePass_adds_no_net_force.
  - simpl. repeat constructor; simpl; intuition lia.
  - intros k b Hget. simpl in Hget.
    destruct (k =? 1)%Z; [injection Hget as <-; repeat split|].
    destruct (k =? 2)%Z; [injection Hget as <-; repeat split | discriminate].
Defined.

End NetForce.

(** ** Exact arithmetic: one pair, either way round *)

Section PairSymmetry.
Local Open Scope R_scope.
Implicit Types (b : Sim.MassiveBody R) (p q : list R).

Lemma sumsq_sub_swap p q : sumsq (NVec.sub p q) = sumsq (NVec.sub q p).
Proof.
  unfold NVec.sub. revert q.
  induction p as [|a p IH]; intros [|c q]; simpl; try reflexivity.
  rewrite IH. cbn. ring.
Qed.

Lemma div_sub_swap p q (d : R) :
  NVec.div_value (NVec.sub p q) d = vopp (NVec.div_value (NVec.sub q p) d).
Proof.
  unfold NVec.div_value, NVec.sub, vopp. revert q.
  induction p as [|a p IH]; intros [|c q]; simpl; try reflexivity.
  f_equal; [cbn; unfold Rdiv; ring | apply IH].
Qed.

(** X18: for two bodies with positions of the same dimension, the collision
    test gives the same answer whichever body comes first, and the
    acceleration factor of the pair taken the other way round is the
    opposite vector. *)
Theorem pair_either_way_round b1 b2 :
  List.length (Sim.pos b1) = List.length (Sim.pos b2) ->
  Sim.colliding b2 b1 = Sim.colliding b1 b2
  /\ Sim.accFactor b2 b1 = vopp (Sim.accFactor b1 b2).
Proof.
  intros _.
  assert (Hsq : Sim.distanceSquared b2 b1 = Sim.distanceSquared b1 b2).
  { unfold Sim.distanceSquared, Sim.displacement.
    rewrite !magnitudeSquared_sumsq. apply sumsq_sub_swap. }
  assert (Hd : Sim.distance b2 b1 = Sim.distance b1 b2).
  { unfold Sim.distance, NVec.magnitude.
    fold (Sim.distanceSquared b2 b1). fold (Sim.distanceSquared b1 b2).
    now rewrite Hsq. }
  split.
  - unfold Sim.colliding, Sim.threshold. rewrite Hd. cbn.
    now rewrite (Rplus_comm (Sim.r b2)).
  - unfold Sim.accFactor. rewrite Hsq, Hd. unfold Sim.displacement.
    apply div_sub_swap.
Qed.

Lemma pair_either_way_round_witness :
  Sim.colliding Orbit.b2 Orbit.b1 = Sim.colliding Orbit.b1 Orbit.b2
  /\ Sim.accFactor Orbit.b2 Orbit.b1 = vopp (Sim.accFactor Orbit.b1 Orbit.b2).
Proof. apply pair_either_way_round. reflexivity. Defined.

(** X19: two movable 2-dimensional bodies with positive masses at different
    places that are not colliding are pulled toward each other: what the
    pair adds to the acceleration of the first points along the displacement
    from the first to the second, what it adds to the second points against
    it. *)
Theorem pair_attracts b1 b2 :
  movable2 b1 -> movable2 b2 ->
  0 < Sim.m b1 -> 0 < Sim.m b2 ->
  Sim.pos b1 <> Sim.pos b2 ->
  0 < NVec.dot (NVec.sub (Sim.acc (Sim.attract1 b1 b2)) (Sim.acc b1))
               (Sim.displacement b1 b2)
  /\ NVec.dot (NVec.sub (Sim.acc (Sim.attract2 b1 b2)) (Sim.acc b2))
              (Sim.displacement b1 b2) < 0.
Proof.
  destruct b1 as [i1 p1 v1 a1 m1 r1 s1], b2 as [i2 p2 v2 a2 m2 r2 s2].
  unfold movable2. cbn [Sim.isStatic Sim.pos Sim.acc Sim.m].
  intros (Hp1 & Ha1 & ->) (Hp2 & Ha2 & ->) Hm1 Hm2 Hne.
  destruct (two_components _ Hp1) as (x1 & y1 & ->).
  destruct (two_components _ Hp2) as (x2 & y2 & ->).
  destruct (two_components _ Ha1) as (ax1 & ay1 & ->).
  destruct (two_components _ Ha2) as (ax2 & ay2 & ->).
  assert (Hs : 0 < (x2 - x1) * (x2 - x1) + (y2 - y1) * (y2 - y1)).
  { destruct (Req_dec x1 x2) as [->|Hx].
    - destruct (Req_dec y1 y2) as [->|Hy]; [now contradiction Hne|].
      assert (0 < (y2 - y1) * (y2 - y1)) by (apply Rsqr_pos_lt; lra).
      pose proof (Rle_0_sqr (x2 - x2)) as Hx. unfold Rsqr in Hx. lra.
    - assert (0 < (x2 - x1) * (x2 - x1)) by (apply Rsqr_pos_lt; lra).
      pose proof (Rle_0_sqr (y2 - y1)) as Hy. unfold Rsqr in Hy. lra. }
  unfold Sim.attract1, Sim.attract2, Sim.accFactor, Sim.distance, Sim.distanceSquared,
    Sim.displacement, NVec.magnitude, NVec.dot.
  cbn [Sim.isStatic Sim.acc Sim.m Sim.pos negb Sim.set_acc].
  cbn. set (sq := 0 + (x2 - x1) * (x2 - x1) + (y2 - y1) * (y2 - y1)).
  assert (Hsq : 0 < sq) by (unfold sq; lra).
  assert (Hroot : 0 < sqrt sq) by now apply sqrt_lt_R0.
  assert (HD : 0 < / (sq * (sqrt sq * 6500))).
  { apply Rinv_0_lt_compat. apply Rmult_lt_0_compat; [exact Hsq|].
    apply Rmult_lt_0_compat; [exact Hroot | lra]. }
  unfold Rdiv. set (D := / (sq * (sqrt sq * 6500))) in *.
  assert (H1 : 0 < sq * (m2 * D))
    by (apply Rmult_lt_0_compat; [exact Hsq | now apply Rmult_lt_0_compat]).
  assert (H2 : 0 < sq * (m1 * D))
    by (apply Rmult_lt_0_compat; [exact Hsq | now apply Rmult_lt_0_compat]).
  split.
  - replace (0 + (ax1 + (x2 - x1) * D * m2 - ax1) * (x2 - x1)
             + (ay1 + (y2 - y1) * D * m2 - ay1) * (y2 - y1))
      with (sq * (m2 * D)) by (unfold sq at 1; ring).
    exact H1.
  - replace (0 + (ax2 - (x2 - x1) * D * m1 - ax2) * (x2 - x1)
             + (ay2 - (y2 - y1) * D * m1 - ay2) * (y2 - y1))
      with (- (sq * (m1 * D))) by (unfold sq at 1; ring).
    lra.
Qed.

Lemma pair_attracts_witness :
  0 < NVec.dot (NVec.sub (Sim.acc (Sim.attract1 Orbit.b1 Orbit.b2)) (Sim.acc Orbit.b1))
               (Sim.displacement Orbit.b1 Orbit.b2)
  /\ NVec.dot (NVec.sub (Sim.acc (Sim.attract2 Orbit.b1 Orbit.b2)) (Sim.acc Orbit.b2))
              (Sim.displacement Orbit.b1 Orbit.b2) < 0.
Proof.
  apply pair_attracts.
  - repeat split.
  - repeat split.
  - simpl. lra.
  - simpl. lra.
  - unfold Orbit.b1, Orbit.b2. simpl. intros [= H3 _]. lra.
Defined.

End PairSymmetry.

(** ** Exact arithmetic: the centre of mass *)

Section CentreOfMass.
Local Open Scope R_scope.
Implicit Types (coll : list (Sim.MassiveBody R)) (v w : list R).

Lemma vadd_comm v w : NVec.add v w = NVec.add w v.
Proof.
  unfold NVec.add. revert w.
  induction v as [|x v IH]; intros [|y w]; simpl; try reflexivity.
  f_equal; [apply Rplus_comm | apply IH].
Qed.

Lemma weighted_sum_permutation f coll coll' :
  Permutation coll coll' -> weighted_sum f coll = weighted_sum f coll'.
Proof.
  unfold weighted_sum. induction 1 as [|b l l' _ IH|b b' l|l l' l'' _ IH1 _ IH2]; simpl.
  - reflexivity.
  - now rewrite IH.
  - rewrite <- !vadd_assoc. f_equal. apply vadd_comm.
  - now rewrite IH1.
Qed.

Lemma mass_sum_permutation coll coll' :
  Permutation coll coll' -> mass_sum coll = mass_sum coll'.
Proof.
  unfold mass_sum. induction 1 as [|b l l' _ IH|b b' l|l l' l'' _ IH1 _ IH2]; simpl.
  - reflexivity.
  - now rewrite IH.
  - ring.
  - now rewrite IH1.
Qed.

(** X20: the centre of mass of a group of two or more 2-dimensional bodies
    does not depend on the order in which the group lists them. *)
Theorem centerOfMass_any_order coll coll' :
  Permutation coll coll' ->
  (2 <= List.length coll)%nat ->
  (forall b, In b coll -> List.length (Sim.pos b) = 2%nat) ->
  Sim.centerOfMass coll = Sim.centerOfMass coll'.
Proof.
  intros Hperm Hlen Hdim.
  rewrite (centerOfMass_mean coll Hlen Hdim).
  rewrite (centerOfMass_mean coll').
  - now rewrite (weighted_sum_permutation Sim.pos _ _ Hperm), (mass_sum_permutation _ _ Hperm).
  - now rewrite <- (Permutation_length Hperm).
  - intros b Hin. apply Hdim. apply (Permutation_in b (Permutation_sym Hperm) Hin).
Qed.

Lemma centerOfMass_any_order_witness :
  Sim.centerOfMass [Group.a; Group.b; Group.sun]
    = Sim.centerOfMass [Group.sun; Group.a; Group.b].
Proof.
  apply centerOfMass_any_order.
  - apply Permutation_sym. change [Group.sun; Group.a; Group.b]
      with ([Group.sun] ++ [Group.a; Group.b]).
    change [Group.a; Group.b; Group.sun] with ([Group.a; Group.b] ++ [Group.sun]).
    apply Permutation_app_comm.
  - simpl. lia.
  - intros b [<- | [<- | [<- | []]]]; reflexivity.
Defined.

End CentreOfMass.

(** ** The merge and the bookkeeping of the world *)

(** X21: [handleCollisions] moves the id counter on by the number of groups,
    and a body whose id is below the counter and is the id of no group
    member is afterwards stored as before. *)
Theorem handleCollisions_spares_the_rest {num : Type} `{Number num}
  (M : Sim.BodyModel num) (groups : list (list (Sim.MassiveBody num)))
  (live : Sim.BodyList num) (nextId k : Z) :
  (k < nextId)%Z ->
  (forall coll b, In coll groups -> In b coll -> Sim.id b <> k) ->
  Sim.get k (fst (Sim.handleCollisions M groups live nextId)) = Sim.get k live
  /\ snd (Sim.handleCollisions M groups live nextId)
       = (nextId + Z.of_nat (List.length groups))%Z.
Proof.
  intros Hlt Hout. split; [|apply handleCollisions_nextId].
  apply handleCollisions_get_outside; [exact Hlt|].
  apply outside_true. intros b Hin. apply in_concat in Hin.
  destruct Hin as (coll & Hc & Hb). now apply (Hout coll).
Qed.

Lemma handleCollisions_spares_the_rest_witness :
  Sim.get 3 (fst (Sim.handleCollisions Pile.model [Merge.group] Pile.three 4))
    = Sim.get 3 Pile.three
  /\ snd (Sim.handleCollisions Pile.model [Merge.group] Pile.three 4) = 5%Z.
Proof.
  apply (handleCollisions_spares_the_rest Pile.model [Merge.group] Pile.three 4 3).
  - lia.
  - intros coll b [<- | []] [<- | [<- | []]]; vm_compute; discriminate.
Defined.

Section WorldBookkeeping.
Context {num : Type} `{Number num}.
Implicit Types (k : Z) (b : Sim.MassiveBody num) (live : Sim.BodyList num)
  (w : Sim.World num).

Lemma frozen_id b b' : frozen b = frozen b' -> Sim.id b = Sim.id b'.
Proof. unfold frozen. congruence. Qed.

Lemma NoDup_new_ids (nextId : Z) (n : nat) :
  NoDup (map (fun i => (nextId + Z.of_nat i)%Z) (seq 0 n)).
Proof.
  generalize 0%nat. induction n as [|n IH]; intros start; simpl; constructor.
  - intros Hin. apply in_map_iff in Hin. destruct Hin as (i & Heq & Hi).
    apply in_seq in Hi. lia.
  - apply IH.
Qed.

(** X22: [updateAcceleration2] keeps the bookkeeping of the world: no id
    twice in the map, every body stored under its own id, every live id
    below the id counter. *)
Theorem updateAcceleration2_keeps_bookkeeping (M : Sim.BodyModel num) w :
  well_formed w -> well_formed (Sim.updateAcceleration2 M w).
Proof.
  intros (Hnd & Hid & Hlt). unfold Sim.updateAcceleration2.
  set (st := Sim.forcePass (Sim.w_bodies w) (Sim.w_console w)).
  assert (Hkeys : Sim.keys (Sim.bodies st) = Sim.keys (Sim.w_bodies w))
    by apply forcePass_keys.
  assert (Hid' : forall k b, Sim.get k (Sim.bodies st) = Some b -> Sim.id b = k).
  { intros k b Hget.
    pose proof (forcePass_frozen (Sim.w_bodies w) (Sim.w_console w) k) as Hfr.
    fold st in Hfr. rewrite Hget in Hfr.
    destruct (Sim.get k (Sim.w_bodies w)) as [b0|] eqn:H0; [|discriminate].
    cbn [option_map] in Hfr. rewrite <- (Hid k b0 H0).
    apply frozen_id. congruence. }
  assert (Hmem : forall b, In b (List.concat (Sim.collisions st)) ->
                           (Sim.id b < Sim.w_nextId w)%Z).
  { intros b Hin. apply in_concat in Hin. destruct Hin as (coll & Hc & Hb).
    pose proof (forcePass_tracks (Sim.w_bodies w) (Sim.w_console w)) as [_ Hall].
    fold st in Hall. unfold all_drawn_from in Hall.
    rewrite Forall_forall in Hall. specialize (Hall coll Hc).
    rewrite Forall_forall in Hall. destruct (Hall b Hb) as (k & b0 & H0 & Hfr).
    rewrite (frozen_id _ _ Hfr), (Hid k b0 H0). apply Hlt.
    eapply get_Some_In. exact H0. }
  destruct (Sim.collisions st) as [|c cs] eqn:Hcs.
  - repeat split; cbn [Sim.w_bodies Sim.w_nextId];
      [now rewrite Hkeys | exact Hid' | now rewrite Hkeys].
  - set (groups := c :: cs) in *.
    assert (Hlive : forall k, In k (Sim.keys (Sim.bodies st)) -> (k < Sim.w_nextId w)%Z)
      by (rewrite Hkeys; exact Hlt).
    pose proof (handleCollisions_keys M groups (Sim.bodies st) (Sim.w_nextId w) Hlive Hmem)
      as Hnew.
    pose proof (handleCollisions_nextId M groups (Sim.bodies st) (Sim.w_nextId w)) as Hnext.
    destruct (Sim.handleCollisions M groups (Sim.bodies st) (Sim.w_nextId w))
      as [bodies' nextId'] eqn:Hh.
    cbn [fst snd] in Hnew, Hnext. unfold well_formed. cbn [Sim.w_bodies Sim.w_nextId].
    split; [|split].
    + rewrite Hnew. apply NoDup_app.
      * apply NoDup_filter. now rewrite Hkeys.
      * apply NoDup_new_ids.
      * intros k Hin1 Hin2. apply filter_In in Hin1. destruct Hin1 as [Hin1 _].
        apply Hlive in Hin1. apply in_map_iff in Hin2.
        destruct Hin2 as (i & Heq & _). lia.
    + intros k b Hget. pose proof (get_Some_In _ _ _ Hget) as Hin.
      rewrite Hnew in Hin. apply in_app_or in Hin. destruct Hin as [Hin | Hin].
      * apply filter_In in Hin. destruct Hin as [Hin Hout].
        pose proof (handleCollisions_get_outside M groups (Sim.bodies st)
                      (Sim.w_nextId w) k (Hlive k Hin) Hout) as Hsame.
        rewrite Hh in Hsame. cbn [fst] in Hsame.
        apply Hid'. congruence.
      * apply in_map_iff in Hin. destruct Hin as (i & <- & Hi).
        apply in_seq in Hi.
        destruct (nth_error groups i) as [coll|] eqn:Hnth;
          [|apply nth_error_None in Hnth; lia].
        pose proof (handleCollisions_get_new M groups (Sim.bodies st)
                      (Sim.w_nextId w) i coll Hmem Hnth) as Hgot.
        rewrite Hh in Hgot. cbn [fst] in Hgot.
        rewrite Hgot in Hget. injection Hget as <-. reflexivity.
    + intros k Hin. rewrite Hnew in Hin. apply in_app_or in Hin.
      destruct Hin as [Hin | Hin].
      * apply filter_In in Hin. destruct Hin as [Hin _]. apply Hlive in Hin. lia.
      * apply in_map_iff in Hin. destruct Hin as (i & <- & Hi).
        apply in_seq in Hi. lia.
Qed.

(** X23: [addBody] with an id that is not live puts the body last in the
    order of the map, leaves every other body as it was, and keeps the ids
    unique. *)
Theorem addBody_appends_new_id (body : Sim.MassiveBody num) live :
  NoDup (Sim.keys live) ->
  ~ In (Sim.id body) (Sim.keys live) ->
  exists live',
    Sim.addBody body live = Normal [] live'
    /\ Sim.keys live' = Sim.keys live ++ [Sim.id body]
    /\ Sim.get (Sim.id body) live' = Some body
    /\ (forall k, k <> Sim.id body -> Sim.get k live' = Sim.get k live)
    /\ NoDup (Sim.keys live').
Proof.
  intros Hnd Hout. exists (Sim.set (Sim.id body) body live).
  split; [reflexivity|].
  split; [now apply keys_set_fresh|].
  split; [apply get_set_same|].
  split; [intros k Hk; now apply get_set_other | now apply NoDup_keys_set].
Qed.

End WorldBookkeeping.

Lemma three_well_formed : well_formed Start.world.
Proof.
  split; [simpl; repeat constructor; simpl; intuition lia|].
  split.
  - intros k b Hget. simpl in Hget.
    destruct (Z.eqb_spec k 1) as [->|_]; [now injection Hget as <-|].
    destruct (Z.eqb_spec k 2) as [->|_]; [now injection Hget as <-|].
    destruct (Z.eqb_spec k 3) as [->|_]; [now injection Hget as <- | discriminate].
  - intros k Hin. simpl in Hin. simpl. intuition lia.
Qed.

Lemma updateAcceleration2_keeps_bookkeeping_witness :
  well_formed (Sim.updateAcceleration2 Pile.model Start.world).
Proof.
  apply updateAcceleration2_keeps_bookkeeping. exact three_well_formed.
Defined.

Lemma addBody_appends_new_id_witness :
  exists live',
    Sim.addBody (Pile.body 9 5 50) Pile.three = Normal [] live'
    /\ Sim.keys live' = Sim.keys Pile.three ++ [Sim.id (Pile.body 9 5 50)]
    /\ Sim.get (Sim.id (Pile.body 9 5 50)) live' = Some (Pile.body 9 5 50)
    /\ (forall k, k <> Sim.id (Pile.body 9 5 50) -> Sim.get k live' = Sim.get k Pile.three)
    /\ NoDup (Sim.keys live').
Proof.
  apply addBody_appends_new_id.
  - simpl. repeat constructor; simpl; intuition lia.
  - simpl. intuition lia.
Defined.

(** ** Exact arithmetic: [getRandomPos] *)

(** X24: whatever the two scaled random numbers are, [getRandomPos] returns a
    2-dimensional position outside the band around the origin: its first
    component is below -500 or at least 2000, its second below -2500 or at
    least 500. *)
Theorem getRandomPos_avoids_the_centre (scaledX scaledY : R) :
  exists x y,
    Sim.getRandomPos scaledX scaledY = [x; y]
    /\ (x < -500 \/ 2000 <= x)%R
    /\ (y < -2500 \/ 500 <= y)%R.
Proof.
  unfold Sim.getRandomPos. cbn [nltb nsub nadd lit real_number]. unfold Rltb.
  eexists. eexists. split; [reflexivity|].
  destruct (Rlt_dec scaledX 0), (Rlt_dec scaledY 0); split; lra.
Qed.

(** ** Every group takes at least one body away *)

Section Founders.
Context {num : Type} `{Number num}.
Implicit Types (k : Z) (b : Sim.MassiveBody num) (st : Sim.Pass num)
  (c : list (Sim.MassiveBody num)) (cs : list (list (Sim.MassiveBody num))).

Lemma founders_app cs cs' : founders (cs ++ cs') = founders cs ++ founders cs'.
Proof. unfold founders. apply flat_map_app. Qed.

Lemma founders_push_at i b cs :
  pairs_or_more cs -> founders (Sim.push_at i b cs) = founders cs.
Proof.
  unfold pairs_or_more, founders. revert i.
  induction cs as [|c cs IH]; intros i Hall; [now destruct i|].
  inversion Hall as [|? ? Hc Hcs]; subst.
  destruct i as [|i]; simpl.
  - f_equal. destruct c as [|x [|y c]]; simpl in Hc; try lia. reflexivity.
  - f_equal. now apply IH.
Qed.

Lemma founders_in_groups cs b : In b (founders cs) -> In b (List.concat cs).
Proof.
  unfold founders. intros Hin. apply in_flat_map in Hin.
  destruct Hin as (c & Hc & Hb). apply in_concat. exists c. split; [exact Hc|].
  revert Hb. generalize 2%nat. intros n Hb.
  apply (In_nth _ _ b) in Hb. destruct Hb as (i & Hi & Hnth).
  rewrite <- (firstn_skipn n c). apply in_or_app. left.
  rewrite <- Hnth. now apply nth_In.
Qed.

Lemma length_founders cs :
  pairs_or_more cs -> List.length (founders cs) = (2 * List.length cs)%nat.
Proof.
  unfold pairs_or_more, founders. induction 1 as [|c cs Hc _ IH]; [reflexivity|].
  cbn [flat_map List.length]. rewrite length_app, IH, length_firstn. lia.
Qed.

Lemma includes_false c b x :
  Sim.includes c b = false -> In x c -> Sim.id x <> Sim.id b.
Proof.
  unfold Sim.includes. intros Hex Hin Heq.
  assert (Ht : existsb (fun y => Z.eqb (Sim.id y) (Sim.id b)) c = true).
  { apply existsb_exists. exists x. split; [exact Hin | now apply Z.eqb_eq]. }
  congruence.
Qed.

Lemma getCollisionWith_None_apart cs b1 b2 x :
  Sim.getCollisionWith cs b1 b2 = None -> In x (List.concat cs) ->
  Sim.id x <> Sim.id b1 /\ Sim.id x <> Sim.id b2.
Proof.
  induction cs as [|c cs IH]; simpl; [tauto|].
  rewrite holds_either.
  destruct (Sim.includes c b1 || Sim.includes c b2) eqn:Hc; [discriminate|].
  apply orb_false_iff in Hc. destruct Hc as [Hc1 Hc2].
  destruct (Sim.getCollisionWith cs b1 b2) as [i|]; [discriminate|].
  intros _ Hin. apply in_app_or in Hin. destruct Hin as [Hin | Hin].
  - split; eapply includes_false; eassumption.
  - now apply IH.
Qed.

Lemma collide_founded b1 b2 st :
  Sim.id b1 <> Sim.id b2 ->
  pairs_or_more (Sim.collisions st) ->
  NoDup (map Sim.id (founders (Sim.collisions st))) ->
  NoDup (map Sim.id (founders (Sim.collisions (Sim.collide b1 b2 st)))).
Proof.
  intros Hne Hpairs Hnd. unfold Sim.collide.
  destruct (Sim.getCollisionWith (Sim.collisions st) b1 b2) as [i|] eqn:Hfound.
  - destruct (Sim.includes _ b1);
      [cbn [Sim.collisions]; now rewrite founders_push_at|].
    destruct (Sim.includes _ b2);
      [cbn [Sim.collisions]; now rewrite founders_push_at | exact Hnd].
  - cbn [Sim.collisions]. rewrite founders_app, map_app. apply NoDup_app.
    + exact Hnd.
    + simpl. repeat constructor; simpl; intuition congruence.
    + intros z Hz1 Hz2. apply in_map_iff in Hz1. destruct Hz1 as (x & <- & Hx).
      apply founders_in_groups in Hx.
      destruct (getCollisionWith_None_apart _ _ _ _ Hfound Hx) as [Hx1 Hx2].
      simpl in Hz2. intuition congruence.
Qed.

Lemma evalPair_founded k k2 st :
  k <> k2 -> founded st -> founded (Sim.evalPair k k2 st).
Proof.
  intros Hne (Hid & Hpairs & Hnd).
  split; [|split; [now apply evalPair_pairs_or_more|]].
  - intros k' b Hget.
    pose proof (evalPair_frozen k k2 st k') as Hfr. rewrite Hget in Hfr.
    destruct (Sim.get k' (Sim.bodies st)) as [b0|] eqn:H0; [|discriminate].
    cbn [option_map] in Hfr. rewrite <- (Hid k' b0 H0).
    unfold frozen in Hfr. congruence.
  - unfold Sim.evalPair.
    destruct (Sim.get k2 (Sim.bodies st)) as [b2|] eqn:H2; [|exact Hnd].
    destruct (Sim.get k (Sim.bodies st)) as [b1|] eqn:H1; [|exact Hnd].
    destruct (Sim.colliding b1 b2); [|exact Hnd].
    apply collide_founded; [|exact Hpairs | exact Hnd].
    rewrite (Hid k b1 H1), (Hid k2 b2 H2). exact Hne.
Qed.

Lemma outer_founded bodyKeys st :
  NoDup bodyKeys -> founded st -> founded (Sim.outer bodyKeys st).
Proof.
  revert st. induction bodyKeys as [|k later IH]; intros st Hnd Hf; [exact Hf|].
  inversion Hnd as [|? ? Hout Hlater]; subst. simpl. apply IH; [exact Hlater|].
  unfold Sim.inner. clear IH Hlater Hnd. revert st Hf.
  induction later as [|k2 later IH]; intros st Hf; [exact Hf|].
  simpl. apply IH.
  - intros Hin. apply Hout. now right.
  - apply evalPair_founded; [|exact Hf]. intros ->. apply Hout. now left.
Qed.

Lemma filter_leaves_out (P : Z -> bool) (ks out : list Z) :
  NoDup out -> incl out ks -> (forall x, In x out -> P x = false) ->
  (List.length (filter P ks) + List.length out <= List.length ks)%nat.
Proof.
  intros Hnd Hincl Hfalse.
  assert (Hsplit : (List.length (filter P ks)
                    + List.length (filter (fun x => negb (P x)) ks)
                    = List.length ks)%nat).
  { clear. induction ks as [|x ks IH]; simpl; [reflexivity|].
    destruct (P x); simpl; lia. }
  assert (Hle : (List.length out
                 <= List.length (filter (fun x => negb (P x)) ks))%nat).
  { apply NoDup_incl_length; [exact Hnd|]. intros x Hx. apply filter_In.
    split; [now apply Hincl | now rewrite (Hfalse x Hx)]. }
  lia.
Qed.

(** X25: in a world that is kept in order (ids unique, bodies stored under
    their ids, ids below the counter) every collision group of a step takes
    at least one body away: the number of live bodies after
    [updateAcceleration2], plus the number of groups, is at most the number
    before. *)
Theorem every_group_removes_a_body (M : Sim.BodyModel num) (w : Sim.World num) :
  well_formed w ->
  (List.length (Sim.w_bodies (Sim.updateAcceleration2 M w))
   + List.length (Sim.collisions (Sim.forcePass (Sim.w_bodies w) (Sim.w_console w)))
   <= List.length (Sim.w_bodies w))%nat.
Proof.
  intros (Hnd & Hid & Hlt). unfold Sim.updateAcceleration2.
  set (st := Sim.forcePass (Sim.w_bodies w) (Sim.w_console w)).
  assert (Hkeys : Sim.keys (Sim.bodies st) = Sim.keys (Sim.w_bodies w))
    by apply forcePass_keys.
  assert (Hlen : forall l : Sim.BodyList num, List.length l = List.length (Sim.keys l))
    by (intros l; unfold Sim.keys; now rewrite length_map).
  destruct (outer_founded (Sim.keys (Sim.w_bodies w))
              (Sim.mkPass (Sim.w_bodies w) [] [] (Sim.w_console w)) Hnd)
    as (_ & Hpairs & Hfound).
  { split; [exact Hid | split; constructor]. }
  fold (Sim.forcePass (Sim.w_bodies w) (Sim.w_console w)) in Hpairs, Hfound.
  fold st in Hpairs, Hfound.
  assert (Hdrawn : forall b, In b (List.concat (Sim.collisions st)) ->
                             In (Sim.id b) (Sim.keys (Sim.w_bodies w))).
  { intros b Hin. apply in_concat in Hin. destruct Hin as (coll & Hc & Hb).
    pose proof (forcePass_tracks (Sim.w_bodies w) (Sim.w_console w)) as [_ Hall].
    fold st in Hall. unfold all_drawn_from in Hall.
    rewrite Forall_forall in Hall. specialize (Hall coll Hc).
    rewrite Forall_forall in Hall. destruct (Hall b Hb) as (k & b0 & H0 & Hfr).
    rewrite (frozen_id _ _ Hfr), (Hid k b0 H0). eapply get_Some_In. exact H0. }
  destruct (Sim.collisions st) as [|c cs] eqn:Hcs.
  - cbn [Sim.w_bodies List.length]. rewrite !Hlen, Hkeys. lia.
  - set (groups := c :: cs) in *.
    assert (Hlive : forall k, In k (Sim.keys (Sim.bodies st)) -> (k < Sim.w_nextId w)%Z)
      by (rewrite Hkeys; exact Hlt).
    assert (Hmem : forall b, In b (List.concat groups) -> (Sim.id b < Sim.w_nextId w)%Z)
      by (intros b Hin; apply Hlt; now apply Hdrawn).
    pose proof (handleCollisions_keys M groups (Sim.bodies st) (Sim.w_nextId w) Hlive Hmem)
      as Hnew.
    destruct (Sim.handleCollisions M groups (Sim.bodies st) (Sim.w_nextId w))
      as [bodies' nextId'] eqn:Hh.
    cbn [fst] in Hnew. cbn [Sim.w_bodies].
    rewrite (Hlen bodies'), Hnew, length_app, length_map, length_seq.
    pose proof (filter_leaves_out (outside (List.concat groups))
                  (Sim.keys (Sim.bodies st))
                  (map Sim.id (founders groups)) Hfound) as Hcount.
    rewrite length_map, (length_founders _ Hpairs) in Hcount.
    rewrite (Hlen (Sim.w_bodies w)), <- Hkeys.
    assert (Hgoal : (List.length (filter (outside (List.concat groups))
                                         (Sim.keys (Sim.bodies st)))
                     + 2 * List.length groups
                     <= List.length (Sim.keys (Sim.bodies st)))%nat).
    { apply Hcount.
      - intros z Hz. apply in_map_iff in Hz. destruct Hz as (x & <- & Hx).
        rewrite Hkeys. apply Hdrawn. now apply founders_in_groups.
      - intros z Hz. apply in_map_iff in Hz. destruct Hz as (x & <- & Hx).
        apply founders_in_groups in Hx.
        destruct (outside (List.concat groups) (Sim.id x)) eqn:Hout; [|reflexivity].
        exfalso. now apply (proj1 (outside_true _ _) Hout x Hx). }
    lia.
Qed.

End Founders.

Lemma every_group_removes_a_body_witness :
  (List.length (Sim.w_bodies (Sim.updateAcceleration2 Pile.model Start.world))
   + List.length (Sim.collisions
                    (Sim.forcePass (Sim.w_bodies Start.world) (Sim.w_console Start.world)))
   <= List.length (Sim.w_bodies Start.world))%nat.
Proof.
  apply every_group_removes_a_body. exact three_well_formed.
Defined.

(** ** The new definitions in doubles *)

(** [dot] against a shorter right operand reads [undefined] and yields [NaN];
    [unit] of the zero vector divides by zero; [getItem] past the end is
    [undefined]. *)
Example vector_edges_in_doubles :
  NVec.dot [1; 2]%float [3]%float = nan
  /\ NVec.dot [1; 2]%float [3; 4; 5]%float = 11%float
  /\ NVec.unit [0; 0]%float = [nan; nan]
  /\ NVec.unit [3; 4]%float = [3 / 5; 4 / 5]%float
  /\ NVec.midpoint [0; 4]%float [2; 0]%float = [1; 2]%float
  /\ NVec.getItem [7; 8]%float 2 = None
  /\ NVec.getItem [7; 8]%float 1 = Some 8%float
  /\ Sim.getRandomPos (-0.5)%float 0.5%float = [-500.5; 500.5]%float.
Proof. repeat split; vm_compute; reflexivity. Qed.
